(** * MockKnex: the expectation-chain matching engine

    A shallow embedding of [mockKnex.ts]: the [Data] record, the
    expectation recorder [MockQuery], the invocation proxy [MockResolve],
    the matcher [findResult] and the two accessors [valueOf] and [then].

    JavaScript values are modelled by the inductive [JsVal]; the arrays that
    the classes share by reference ([dataArrayArray], aliased as
    [MockQuery.dataArray] and [MockResolve.resolveQue]) live in an explicit
    [World] that every method threads through, together with the console. *)

From Stdlib Require Import ZArith.
From stdpp Require Import base list strings.

Local Open Scope string_scope.
Local Open Scope list_scope.

(** ** JavaScript values *)

(** How a promise ends: it fulfils with a value, rejects with a reason, or
    stays pending for ever. *)
Inductive Settlement (A : Type) : Type :=
  | Fulfils (value : A)
  | Rejects (reason : A)
  | NeverSettles.
Arguments Fulfils {A} value.
Arguments Rejects {A} reason.
Arguments NeverSettles {A}.

(** The values passed as arguments and results ([any] in the source):
    plain data and native promises.  Numbers are restricted to integers; an
    object is the list of its own enumerable properties in insertion order;
    a promise is an object known by its reference [id] and by how it
    settles (a promise never fulfils with a promise).  Functions, and with
    them thenables made of user code, are outside the model. *)
#[local] Unset Elimination Schemes.
Inductive JsVal : Type :=
  | JUndefined
  | JNull
  | JBool (b : bool)
  | JNum (n : Z)
  | JStr (s : string)
  | JArr (elems : list JsVal)
  | JObj (props : list (string * JsVal))
  | JPromise (id : nat) (settles : Settlement JsVal).
#[local] Set Elimination Schemes.

(** The library function [_.isEqual] (lodash, not part of this repository):
    primitives by value, arrays position by position, objects by their key
    sets and the values under each key (the order of the keys is
    irrelevant), promises by reference. *)
Fixpoint isEqual (value other : JsVal) {struct value} : bool :=
  match value, other with
  | JUndefined, JUndefined => true
  | JNull, JNull => true
  | JBool a, JBool b => Bool.eqb a b
  | JNum a, JNum b => Z.eqb a b
  | JStr a, JStr b => String.eqb a b
  | JArr xs, JArr ys =>
      (fix equalArrays (xs ys : list JsVal) {struct xs} : bool :=
         match xs, ys with
         | [], [] => true
         | x :: xs', y :: ys' => isEqual x y && equalArrays xs' ys'
         | _, _ => false
         end) xs ys
  | JObj ps, JObj qs =>
      Nat.eqb (length ps) (length qs) &&
      (fix equalObjects (ps : list (string * JsVal)) {struct ps} : bool :=
         match ps with
         | [] => true
         | (key, x) :: ps' =>
             existsb (λ '(key', y), String.eqb key key' && isEqual x y) qs
             && equalObjects ps'
         end) ps
  | JPromise i _, JPromise j _ => Nat.eqb i j
  | _, _ => false
  end.

(** ** The [Data] class *)

(** What [Data.parameters] holds.  The two constructors seed a chain with
    the bare string [tableName]; every fluent method stores its rest
    parameter [...input], which is always an array. *)
Inductive Params : Type :=
  | PStr (s : string)
  | PArr (input : list JsVal).

(** [parameters.length]: code units of a string, elements of an array. *)
Definition params_length (p : Params) : nat :=
  match p with
  | PStr s => String.length s
  | PArr input => length input
  end.

Definition params_val (p : Params) : JsVal :=
  match p with
  | PStr s => JStr s
  | PArr input => JArr input
  end.

(** [_.isEqual(a.parameters, b.parameters)]. *)
Definition params_isEqual (p q : Params) : bool :=
  isEqual (params_val p) (params_val q).

(** [result?: any] is [None] while the property is absent. *)
Record Data : Type := mkData {
  action : string;
  parameters : Params;
  isMore : bool;
  result : option JsVal;
}.

Definition CraftData (action : string) (parameters : Params) (isMore : bool)
  : Data :=
  {| action := action; parameters := parameters; isMore := isMore;
     result := None |}.


(** ** The operation names *)

(** The constants of the source, one per fluent method; the value of each
    is the lower-cased method name. *)
Definition vocabulary : list string :=
  ["column"; "columns"; "comment"; "hintcomment"; "from"; "fromraw";
   "into"; "table"; "join"; "joinraw"; "innerjoin"; "leftjoin";
   "leftouterjoin"; "rightjoin"; "rightouterjoin"; "outerjoin";
   "fullouterjoin"; "crossjoin"; "using"; "select"; "distinct";
   "distincton"; "jsonextract"; "jsoninsert"; "jsonremove"; "jsonset";
   "as"; "where"; "andwhere"; "orwhere"; "wherenot"; "andwherenot";
   "orwherenot"; "wherein"; "wherenotin"; "orwherein"; "orwherenotin";
   "wherenull"; "wherenotnull"; "orwherenotnull"; "whereraw";
   "andwhereraw"; "orwhereraw"; "wherewrapped"; "havingwrapped";
   "wherejsonobject"; "orwherejsonobject"; "andwherejsonobject";
   "wherenotjsonobject"; "orwherenotjsonobject"; "andwherenotjsonobject";
   "wherejsonpath"; "orwherejsonpath"; "andwherejsonpath";
   "wherejsonsupersetof"; "orwherejsonsupersetof";
   "andwherejsonsupersetof"; "wherejsonnotsupersetof";
   "orwherejsonnotsupersetof"; "andwherejsonnotsupersetof";
   "wherejsonsubsetof"; "orwherejsonsubsetof"; "andwherejsonsubsetof";
   "wherejsonnotsubsetof"; "orwherejsonnotsubsetof";
   "andwherejsonnotsubsetof"; "wherelike"; "andwherelike"; "orwherelike";
   "whereilike"; "andwhereilike"; "orwhereilike"; "wherebetween";
   "andwherebetween"; "orwherebetween"; "wherenotbetween";
   "andwherenotbetween"; "orwherenotbetween"; "whereexists";
   "orwhereexists"; "wherenotexists"; "orwherenotexists"; "groupby";
   "groupbyraw"; "orderby"; "orderbyraw"; "partitionby"; "union";
   "unionall"; "intersect"; "except"; "having"; "andhaving"; "orhaving";
   "havingraw"; "orhavingraw"; "havingin"; "havingnotin"; "andhavingnotin";
   "orhavingnotin"; "havingbetween"; "orhavingbetween"; "havingnotbetween";
   "orhavingnotbetween"; "havingnull"; "havingnotnull"; "clearselect";
   "clearwhere"; "cleargroup"; "clearorder"; "clearhaving";
   "clearcounters"; "clear"; "offset"; "limit"; "count"; "countdistinct";
   "min"; "max"; "sumdistinct"; "avg"; "avgdistinct"; "insert"; "upsert";
   "update"; "updatefrom"; "modify"; "returning"; "onconflict";
   "increment"; "decrement"; "del"; "delete"; "truncate"; "rank";
   "denserank"; "rownumber"; "first"; "pluck"; "with"; "withmaterialized";
   "withnotmaterialized"; "withraw"; "withrecursive"; "withschema";
   "withwrapped"; "raw"; "rows"; "query"].

Definition TABLE : string := "table".
Definition SELECT : string := "select".
Definition WHERE : string := "where".
Definition RAW : string := "raw".

(** ** Configuration, console and the shared world *)

Record Config : Type := { printData : bool }.

(** One argument of a [console.log] call; [LData None] prints [undefined]. *)
Inductive LogArg : Type :=
  | LStr (s : string)
  | LVal (v : JsVal)
  | LData (d : option Data).

Definition LogLine : Type := list LogArg.

(** The [MockKnex] instance.  [dataArrayArray] holds the chain arrays
    themselves; an array is pushed when it is created and never moved, so
    its position identifies it. *)
Record MockKnex : Type := {
  dataArrayArray : list (list Data);
  config : option Config;
}.

Record World : Type := {
  DB : MockKnex;
  console : list LogLine;
}.

(** [new MockKnex(config)] *)
Definition MockKnex_new (cfg : option Config) : MockKnex :=
  {| dataArrayArray := []; config := cfg |}.

Definition World_new (cfg : option Config) : World :=
  {| DB := MockKnex_new cfg; console := [] |}.

(** ** Computations *)

Inductive JsError : Type :=
  | TypeError      (* a property of [undefined] was read or written *)
  | NoSuchArray.   (* a reference that no factory call returned *)

Inductive Completion (A : Type) : Type :=
  | Normal (a : A)
  | Throw (e : JsError).
Arguments Normal {A} a.
Arguments Throw {A} e.

(** State [S] is kept when a computation throws. *)
Definition M (S A : Type) : Type := S → Completion A * S.

Definition ret {S A} (a : A) : M S A := λ s, (Normal a, s).

Definition bind {S A B} (m : M S A) (k : A → M S B) : M S B :=
  λ s, match m s with
       | (Normal a, s') => k a s'
       | (Throw e, s') => (Throw e, s')
       end.

Definition throw {S A} (e : JsError) : M S A := λ s, (Throw e, s).
Definition gets {S A} (f : S → A) : M S A := λ s, (Normal (f s), s).
Definition modify {S} (f : S → S) : M S unit := λ s, (Normal tt, f s).
Definition when {S} (b : bool) (m : M S unit) : M S unit :=
  if b then m else ret tt.

Declare Scope js_scope.
Delimit Scope js_scope with js.
Notation "'let*' x := m 'in' k" := (bind m (λ x, k))
  (at level 10, x pattern, m at level 100, k at level 200) : js_scope.
Notation "m ;;; k" := (bind m (λ _, k))
  (at level 100, k at level 200, right associativity) : js_scope.
Local Open Scope js_scope.

Definition with_chains (chains : list (list Data)) (w : World) : World :=
  {| DB := {| dataArrayArray := chains; config := config (DB w) |};
     console := console w |}.

Definition set_chains (f : list (list Data) → list (list Data)) (w : World)
  : World :=
  with_chains (f (dataArrayArray (DB w))) w.

Definition add_logs (lines : list LogLine) (w : World) : World :=
  {| DB := DB w; console := console w ++ lines |}.

(** [if (tableName)]: [undefined] and the empty string are falsy. *)
Definition truthy (tableName : option string) : bool :=
  match tableName with
  | Some s => negb (String.eqb s "")
  | None => false
  end.

(** A completion that was reached elsewhere, taken into a computation. *)
Definition complete {S A} (c : Completion A) : M S A := λ s, (c, s).

(** [`raw:${input}`], given the text of [input]. *)
Definition inputString (text : string) : string := "raw:" +:+ text.

(** ** [MockQuery]: building expectations *)

(** [dataArray] is a reference to one of the arrays of [dataArrayArray]. *)
Record MockQuery : Type := { dataArray : nat }.

(** [this.dataArray.push(dataToAdd)] *)
Definition dataArray_push (this : MockQuery) (dataToAdd : Data)
  : M World unit :=
  let* chains := gets (λ w, dataArrayArray (DB w)) in
  match chains !! dataArray this with
  | Some _ => modify (set_chains (alter (λ c, c ++ [dataToAdd]) (dataArray this)))
  | None => throw NoSuchArray
  end.

(** [constructor(passedDataArray, tableName?)] *)
Definition MockQuery_new (passedDataArray : nat) (tableName : option string)
  : M World MockQuery :=
  let this := {| dataArray := passedDataArray |} in
  match tableName with
  | Some name =>
      if truthy tableName
      then dataArray_push this (CraftData TABLE (PStr name) true) ;;; ret this
      else ret this
  | None => ret this
  end.

(** Every fluent method [m(...input)] of [MockQuery] is
    [MockQuery_call M input] with [M] the constant of [m]. *)
Definition MockQuery_call (name : string) (input : list JsVal)
  (this : MockQuery) : M World MockQuery :=
  dataArray_push this (CraftData name (PArr input) true) ;;; ret this.

(** The last element gets [isMore = false] and [result = data]. *)
Definition seal (data : JsVal) (d : Data) : Data :=
  {| action := action d; parameters := parameters d; isMore := false;
     result := Some data |}.

(** [RESOLVE(data)]: both assignments go to index [length - 1]; on an empty
    array that element is [undefined] and the first assignment throws. *)
Definition RESOLVE (data : JsVal) (this : MockQuery) : M World unit :=
  let* chains := gets (λ w, dataArrayArray (DB w)) in
  match chains !! dataArray this with
  | Some c =>
      match c !! (length c - 1) with
      | Some _ =>
          modify (set_chains
                    (alter (alter (seal data) (length c - 1)) (dataArray this)))
      | None => throw TypeError
      end
  | None => throw NoSuchArray
  end.

(** [EXPECT()] returns [mQFunc]; the two ways to call it. *)
Definition mQFunc (tableName : option string) : M World MockQuery :=
  let* newData := gets (λ w, length (dataArrayArray (DB w))) in
  modify (set_chains (λ chains, chains ++ [[]])) ;;;
  MockQuery_new newData tableName.

(** [mQFunc.raw(input)].  The template literal has the runtime convert
    [input] to a string; [text] is the completion of that conversion:
    [Normal s] with the text [s] of [input] (a string converts to itself),
    or [Throw] when the conversion throws.  The new array is pushed before
    the conversion runs. *)
Definition mQFunc_raw (text : Completion string) : M World MockQuery :=
  let* newData := gets (λ w, length (dataArrayArray (DB w))) in
  modify (set_chains (λ chains, chains ++ [[]])) ;;;
  let* s := complete text in
  MockQuery_new newData (Some (inputString s)).

(** ** [MockResolve]: recording an invocation *)

(** [resolveQue] is the array [dataArrayArray] of the world; [currentStack]
    is private to the object; [mr_config] is the field [config]. *)
Record MockResolve : Type := {
  currentStack : list Data;
  mr_config : option Config;
}.

(** The methods of [MockResolve] run on the object and the world. *)
Definition MR (A : Type) : Type := M (MockResolve * World) A.

(** [this.config && this.config.printData] *)
Definition printing (this : MockResolve) : bool :=
  match mr_config this with
  | Some c => printData c
  | None => false
  end.

Definition console_log (line : LogLine) : MR unit :=
  modify (λ s, (s.1, add_logs [line] s.2)).

Definition currentStack_push (dataToAdd : Data) : MR unit :=
  modify (λ s, ({| currentStack := currentStack s.1 ++ [dataToAdd];
                   mr_config := mr_config s.1 |}, s.2)).

(** [constructor(config, passedResolveQue, tableName?)] *)
Definition MockResolve_new (cfg : option Config) (tableName : option string)
  : MockResolve :=
  {| currentStack :=
       match tableName with
       | Some name =>
           if truthy tableName then [CraftData TABLE (PStr name) true] else []
       | None => []
       end;
     mr_config := cfg |}.

(** Every fluent method [m(...input)] of [MockResolve]. *)
Definition MockResolve_call (name : string) (input : list JsVal) : MR unit :=
  let* this := gets fst in
  when (printing this)
       (console_log [LStr name; LStr "input"; LVal (JArr input)]) ;;;
  currentStack_push (CraftData name (PArr input) true).

(** [MockDB()] returns [mRFunc]; the two ways to call it. *)
Definition mRFunc (tableName : option string) (w : World) : MockResolve :=
  MockResolve_new (config (DB w)) tableName.

(** [mRFunc.raw(input)], with [text] as in [mQFunc_raw]: no proxy is made
    when the conversion throws. *)
Definition mRFunc_raw (text : Completion string) (w : World)
  : Completion MockResolve :=
  match text with
  | Normal s => Normal (MockResolve_new (config (DB w)) (Some (inputString s)))
  | Throw e => Throw e
  end.

(** ** The matcher *)

(** The inner loop of [findResult] from [innerIndex] on, [n] iterations
    remaining; the value is the flag [match] when the loop is left. *)
Fixpoint links_loop (resolution : list Data) (innerIndex n : nat) : MR bool :=
  match n with
  | 0 => ret true
  | S n' =>
      let* this := gets fst in
      when (printing this)
           (console_log [LStr "find result"; LData (resolution !! innerIndex);
                         LStr "VS"; LData (currentStack this !! innerIndex)]) ;;;
      match resolution !! innerIndex, currentStack this !! innerIndex with
      | Some r, Some c =>
          if negb (String.eqb (action r) (action c)) then ret false
          else if Nat.eqb (params_length (parameters r)) 0
               then links_loop resolution (S innerIndex) n'
          else if negb (params_isEqual (parameters r) (parameters c))
               then ret false
          else links_loop resolution (S innerIndex) n'
      | _, _ => throw TypeError
      end
  end.

(** The outer loop from [index] on, [n] iterations remaining. *)
Fixpoint chains_loop (index n : nat) : MR (option Data) :=
  match n with
  | 0 => ret None
  | S n' =>
      let* resolveQue := gets (λ s, dataArrayArray (DB s.2)) in
      let* this := gets fst in
      match resolveQue !! index with
      | None => throw TypeError
      | Some resolution =>
          if negb (Nat.eqb (length resolution) (length (currentStack this)))
          then chains_loop (S index) n'
          else
            let* match_ := links_loop resolution 0 (length resolution) in
            if negb match_ then chains_loop (S index) n'
            else
              match resolution !! (length resolution - 1) with
              | Some final =>
                  if Nat.ltb 0 (length resolution) && negb (isMore final)
                  then ret (Some final)
                  else chains_loop (S index) n'
              | None => chains_loop (S index) n'
              end
      end
  end.

Definition findResult : MR (option Data) :=
  let* n := gets (λ s, length (dataArrayArray (DB s.2))) in
  chains_loop 0 n.

(** [res.result]: an absent property reads as [undefined]. *)
Definition get_result (res : Data) : JsVal :=
  match result res with
  | Some v => v
  | None => JUndefined
  end.

Definition valueOf : MR JsVal :=
  let* res := findResult in
  match res with
  | Some d => ret (get_result d)
  | None => ret (JArr [])
  end.

(** A promise handed out by [then], by how it ends: fulfilled with [r],
    rejected with the reason [e], or pending for ever. *)
Inductive Promise (R : Type) : Type :=
  | Fulfilled (r : R)
  | Rejected (e : JsVal)
  | Pending.
Arguments Fulfilled {R} r.
Arguments Rejected {R} e.
Arguments Pending {R}.

(** [Promise.resolve(finalRes).then(resolve, reject)].  [Promise.resolve]
    returns a promise as it is and wraps every other value in a fulfilled
    promise; [then] passes the fulfilment value to [resolve] and the
    rejection reason to [reject], and rejects with the same reason when no
    [reject] was given.  The callbacks are functions of the model: they
    return, and what they return is what the promise is fulfilled with. *)
Definition adopt {R1 R2 : Type} (finalRes : JsVal) (resolve : JsVal → R1)
    (reject : option (JsVal → R2)) : Promise (R1 + R2) :=
  match finalRes with
  | JPromise _ (Fulfils v) => Fulfilled (inl (resolve v))
  | JPromise _ (Rejects e) =>
      match reject with
      | Some handler => Fulfilled (inr (handler e))
      | None => Rejected e
      end
  | JPromise _ NeverSettles => Pending
  | v => Fulfilled (inl (resolve v))
  end.

(** [then(resolve, reject?)] *)
Definition then_ {R1 R2 : Type} (resolve : JsVal → R1)
    (reject : option (JsVal → R2)) : MR (Promise (R1 + R2)) :=
  let* res := findResult in
  let finalRes := match res with
                  | Some d => get_result d
                  | None => JArr []
                  end in
  ret (adopt finalRes resolve reject).

(** [await query]: the engine calls [then] with its own two callbacks; the
    awaiting code receives the value, has the reason thrown at it, or waits
    for ever. *)
Definition await : MR (Promise JsVal) :=
  let* p := then_ (λ v, v) (Some (λ e : JsVal, e)) in
  match p with
  | Fulfilled (inl v) => ret (Fulfilled v)
  | Fulfilled (inr e) => ret (Rejected e)
  | Rejected e => ret (Rejected e)
  | Pending => ret Pending
  end.

(** ** Pure summaries of the two loops *)

(** One pass through the body of the inner loop: [true] when neither
    [break] is taken. *)
Definition link_ok (r c : Data) : bool :=
  String.eqb (action r) (action c)
  && (Nat.eqb (params_length (parameters r)) 0
      || params_isEqual (parameters r) (parameters c)).

Definition links_ok (resolution stack : list Data) : bool :=
  forallb (λ rc, link_ok rc.1 rc.2) (zip resolution stack).

(** One pass through the body of the outer loop: [true] when the chain is
    returned. *)
Definition accepts (stack resolution : list Data) : bool :=
  Nat.eqb (length resolution) (length stack)
  && links_ok resolution stack
  && match last resolution with
     | Some final => negb (isMore final)
     | None => false
     end.

Definition scan (store : list (list Data)) (stack : list Data)
  : option Data :=
  match find (accepts stack) store with
  | Some resolution => last resolution
  | None => None
  end.

(** ** The matcher in the words of the specification *)

(** (b) at position [i] the names are equal. *)
Definition name_equal_at (candidate invocation : list Data) (i : nat) : bool :=
  match candidate !! i, invocation !! i with
  | Some r, Some c => String.eqb (action r) (action c)
  | _, _ => false
  end.

(** (c) at position [i] the candidate's parameters are empty or deep-equal
    the invocation's. *)
Definition params_match_at (candidate invocation : list Data) (i : nat)
  : bool :=
  match candidate !! i, invocation !! i with
  | Some r, Some c =>
      Nat.eqb (params_length (parameters r)) 0
      || params_isEqual (parameters r) (parameters c)
  | _, _ => false
  end.

(** (d) the last operation has [isMore] false and carries a result. *)
Definition sealed (candidate : list Data) : bool :=
  match last candidate with
  | Some final => negb (isMore final) && bool_decide (is_Some (result final))
  | None => false
  end.

Definition matches_spec (candidate invocation : list Data) : bool :=
  Nat.eqb (length candidate) (length invocation)
  && forallb (name_equal_at candidate invocation) (seq 0 (length candidate))
  && forallb (params_match_at candidate invocation) (seq 0 (length candidate))
  && sealed candidate.

(** Every operation that was marked final also got its result: [RESOLVE]
    is the only writer of either field. *)
Definition store_wf (store : list (list Data)) : Prop :=
  Forall (Forall (λ d, isMore d = false → is_Some (result d))) store.

(** Two chains with the same operation names and parameters. *)
Definition same_ops (c1 c2 : list Data) : Prop :=
  map (λ d, (action d, parameters d)) c1
  = map (λ d, (action d, parameters d)) c2.

(** The chain starts with a seed operation for the string [s]. *)
Definition seeded_with (s : string) (chain : list Data) : Prop :=
  ∃ d tail, chain = d :: tail ∧ action d = TABLE ∧ parameters d = PStr s.

(** The chain starts with what the fluent method [table(t)] records. *)
Definition table_call_first (t : string) (chain : list Data) : Prop :=
  ∃ d tail, chain = d :: tail ∧ action d = TABLE
            ∧ parameters d = PArr [JStr t].

(** ** Sequences of calls and accesses *)

Definition Call : Type := string * list JsVal.

Definition craft (op : Call) : Data := CraftData op.1 (PArr op.2) true.

(** [q.m1(...).m2(...)...] on a recorder. *)
Fixpoint MockQuery_calls (ops : list Call) (this : MockQuery)
  : M World MockQuery :=
  match ops with
  | [] => ret this
  | op :: ops' =>
      let* this' := MockQuery_call op.1 op.2 this in
      MockQuery_calls ops' this'
  end.

(** The same on a proxy. *)
Fixpoint MockResolve_calls (ops : list Call) : MR unit :=
  match ops with
  | [] => ret tt
  | op :: ops' => MockResolve_call op.1 op.2 ;;; MockResolve_calls ops'
  end.

(** [EXPECT()(tableName).m1(...)...RESOLVE(data)] *)
Definition expect (tableName : option string) (ops : list Call)
    (data : JsVal) : M World unit :=
  let* q := mQFunc tableName in
  let* q' := MockQuery_calls ops q in
  RESOLVE data q'.

(** The two ways to read a proxy. *)
Inductive Access : Type := Sync | Awaited.

(** What the reader gets: the value of the coercion, or how the await
    ends. *)
Inductive Reading : Type :=
  | Value (v : JsVal)
  | Awaits (p : Promise JsVal).

Definition access (a : Access) : MR Reading :=
  match a with
  | Sync => let* v := valueOf in ret (Value v)
  | Awaited => let* p := await in ret (Awaits p)
  end.

Fixpoint accesses (l : list Access) : MR (list Reading) :=
  match l with
  | [] => ret []
  | a :: l' =>
      let* v := access a in
      let* vs := accesses l' in
      ret (v :: vs)
  end.

(** What one iteration of the inner loop prints. *)
Definition link_log (resolution : list Data) (this : MockResolve) (i : nat)
  : list LogLine :=
  if printing this
  then [[LStr "find result"; LData (resolution !! i); LStr "VS";
         LData (currentStack this !! i)]]
  else [].

(** The value both accessors hand out. *)
Definition outcome (store : list (list Data)) (stack : list Data) : JsVal :=
  match scan store stack with
  | Some d => get_result d
  | None => JArr []
  end.

Definition is_promise (v : JsVal) : bool :=
  match v with
  | JPromise _ _ => true
  | _ => false
  end.

(** How an await on the value [v] ends. *)
Definition settle (v : JsVal) : Promise JsVal :=
  match v with
  | JPromise _ (Fulfils x) => Fulfilled x
  | JPromise _ (Rejects e) => Rejected e
  | JPromise _ NeverSettles => Pending
  | _ => Fulfilled v
  end.

(** What one access of kind [a] reads when the matcher hands out [v]. *)
Definition reading (v : JsVal) (a : Access) : Reading :=
  match a with
  | Sync => Value v
  | Awaited => Awaits (settle v)
  end.

(** What the two constructors put into a fresh chain. *)
Definition seed_ops (tableName : option string) : list Data :=
  match tableName with
  | Some name =>
      if truthy tableName then [CraftData TABLE (PStr name) true] else []
  | None => []
  end.

(** A computation raises when it completes with [Throw]. *)
Definition raises {S A} (m : M S A) (s : S) : Prop :=
  ∃ e, (m s).1 = Throw e.

(** The worlds a test can bring about from a new [MockKnex]: factory calls,
    fluent calls and [RESOLVE] on recorders, and whatever the proxies print. *)
Inductive reachable : World → Prop :=
  | reach_new cfg : reachable (World_new cfg)
  | reach_mQFunc w tableName :
      reachable w → reachable (mQFunc tableName w).2
  | reach_mQFunc_raw w text :
      reachable w → reachable (mQFunc_raw text w).2
  | reach_call w name input this :
      reachable w → reachable (MockQuery_call name input this w).2
  | reach_RESOLVE w data this :
      reachable w → reachable (RESOLVE data this w).2
  | reach_log w lines :
      reachable w → reachable (add_logs lines w).

(** ** Sample sessions *)

(** The scenario of the README:
    [EXPECT()("myTable").select(["objectName","id"]).where("field","data")
       .RESOLVE({test: "passed"})]. *)
Definition readme_ops : list Call :=
  [(SELECT, [JArr [JStr "objectName"; JStr "id"]]);
   (WHERE, [JStr "field"; JStr "data"])].

Definition readme_result : JsVal := JObj [("test", JStr "passed")].

Definition readme_world : World :=
  (expect (Some "myTable") readme_ops readme_result (World_new None)).2.

(** [db("myTable").select(["objectName","id"]).where("field","data")] *)
Definition readme_query : MockResolve :=
  (MockResolve_calls readme_ops
     (mRFunc (Some "myTable") readme_world, readme_world)).2.1.

(** [db("other").select(["x"])] against the same store. *)
Definition other_query : MockResolve :=
  (MockResolve_calls [(SELECT, [JArr [JStr "x"]])]
     (mRFunc (Some "other") readme_world, readme_world)).2.1.

(** Three expectations for [select]: one left unsealed, then
    [select().RESOLVE(1)], then [select("a").RESOLVE(2)]. *)
Definition three_selects : World :=
  (bind (mQFunc None) (λ q,
     bind (MockQuery_call SELECT [JStr "a"] q) (λ _,
       bind (expect None [(SELECT, [])] (JNum 1)) (λ _,
         expect None [(SELECT, [JStr "a"])] (JNum 2))))
     (World_new None)).2.

(** [select().RESOLVE(1)] registered before [select("a").RESOLVE(2)]. *)
Definition two_selects : World :=
  (bind (expect None [(SELECT, [])] (JNum 1)) (λ _,
     expect None [(SELECT, [JStr "a"])] (JNum 2))
     (World_new None)).2.

(** [db().select("a")] *)
Definition select_a_query : MockResolve :=
  (MockResolve_calls [(SELECT, [JStr "a"])]
     (mRFunc None two_selects, two_selects)).2.1.

(** [EXPECT()("t")] followed by [RESOLVE(1)]. *)
Definition seeded_world : World := (mQFunc (Some "t") (World_new None)).2.
Definition sealed_world : World :=
  (expect (Some "t") [] (JNum 1) (World_new None)).2.
Definition first_builder : MockQuery := {| dataArray := 0 |}.

(** [EXPECT().raw("x").RESOLVE(1)] and [EXPECT()("raw:x").RESOLVE(2)]. *)
Definition raw_world : World :=
  (bind (mQFunc_raw (Normal "x")) (RESOLVE (JNum 1)) (World_new None)).2.
Definition rawlike_table_world : World :=
  (expect (Some "raw:x") [] (JNum 2) (World_new None)).2.

(** [EXPECT()("").table().RESOLVE(5)]: no seed, then a wildcard [table]. *)
Definition wildcard_table_world : World :=
  (expect (Some "") [(TABLE, [])] (JNum 5) (World_new None)).2.

(** [EXPECT()("users").RESOLVE(3)] *)
Definition users_world : World :=
  (expect (Some "users") [] (JNum 3) (World_new None)).2.

(** [EXPECT()().select("a").RESOLVE(p)] for a promise [p] that fulfils
    with 1, and for one that rejects with ["boom"]. *)
Definition kept_promise : JsVal := JPromise 0 (Fulfils (JNum 1)).
Definition broken_promise : JsVal := JPromise 1 (Rejects (JStr "boom")).
Definition kept_promise_world : World :=
  (expect None [(SELECT, [JStr "a"])] kept_promise (World_new None)).2.
Definition broken_promise_world : World :=
  (expect None [(SELECT, [JStr "a"])] broken_promise (World_new None)).2.

(** [EXPECT()("").table("").RESOLVE(1)] and [db().table("")]. *)
Definition empty_name_world : World :=
  (expect (Some "") [(TABLE, [JStr ""])] (JNum 1) (World_new None)).2.
Definition empty_name_query : MockResolve :=
  (MockResolve_calls [(TABLE, [JStr ""])]
     (mRFunc None empty_name_world, empty_name_world)).2.1.

(** ** Further vocabulary for whole sessions *)

(** [EXPECT().raw(input).m1(...)...RESOLVE(data)] *)
Definition expect_raw (text : Completion string) (ops : list Call)
    (data : JsVal) : M World unit :=
  let* q := mQFunc_raw text in
  let* q' := MockQuery_calls ops q in
  RESOLVE data q'.

(** The calls [m1().m2()...], every one without arguments. *)
Definition without_arguments (names : list string) : list Call :=
  map (λ name, (name, [])) names.

(** What a fluent method of the proxy prints when [printData] is set. *)
Definition call_line (op : Call) : LogLine :=
  [LStr op.1; LStr "input"; LVal (JArr op.2)].

(** What one comparison of [findResult] prints. *)
Definition comparison_line (line : LogLine) : Prop :=
  ∃ a b, line = [LStr "find result"; LData a; LStr "VS"; LData b].

(** An operation as a fluent method records it, and as a constructor seeds
    it. *)
Definition fluent_op (d : Data) : Prop := ∃ input, parameters d = PArr input.

Definition seed_op (d : Data) : Prop :=
  action d = TABLE ∧ ∃ s, parameters d = PStr s ∧ s ≠ "".

(** A chain is an optional seed followed by fluent operations. *)
Definition chain_shape (chain : list Data) : Prop :=
  match chain with
  | [] => True
  | d :: tail => (seed_op d ∨ fluent_op d) ∧ Forall fluent_op tail
  end.

(** [isMore] is false exactly on the operations that carry a result. *)
Definition result_marks_final (d : Data) : Prop :=
  isMore d = false ↔ is_Some (result d).

(** * Properties *)

(** Unfolding the monad operations, and well-formedness of a literal store. *)
Ltac unfold_monad :=
  unfold bind, gets, ret, throw, when, modify, console_log; simpl.

Ltac solve_store_wf :=
  repeat (constructor; simpl); intros; try discriminate; eauto.


(** ** Values *)

Lemma JsVal_nested_ind (P : JsVal → Prop) :
  P JUndefined → P JNull → (∀ b, P (JBool b)) → (∀ n, P (JNum n)) →
  (∀ s, P (JStr s)) →
  (∀ elems, Forall P elems → P (JArr elems)) →
  (∀ props, Forall (λ kv, P kv.2) props → P (JObj props)) →
  (∀ id settles,
     match settles with
     | Fulfils v | Rejects v => P v
     | NeverSettles => True
     end → P (JPromise id settles)) →
  ∀ v, P v.
Proof.
  intros Hu Hn Hb Hz Hs Ha Ho Hp.
  fix IH 1. intros [| |b|n|s|elems|props|id settles].
  - exact Hu.
  - exact Hn.
  - apply Hb.
  - apply Hz.
  - apply Hs.
  - apply Ha. induction elems as [|x xs IHxs]; constructor.
    + apply IH.
    + exact IHxs.
  - apply Ho. induction props as [|[k x] xs IHxs]; constructor.
    + apply IH.
    + exact IHxs.
  - apply Hp. destruct settles as [v|v|].
    + apply IH.
    + apply IH.
    + exact I.
Qed.

Lemma isEqual_refl v : isEqual v v = true.
Proof.
  induction v as [| |b|n|s|elems IH|props IH|id settles _]
    using JsVal_nested_ind; simpl; auto.
  - by destruct b.
  - apply Z.eqb_refl.
  - apply String.eqb_refl.
  - induction IH as [|x xs Hx _ IHxs]; [done|].
    by rewrite Hx, IHxs.
  - rewrite Nat.eqb_refl. simpl.
    match goal with
    | |- ?f props = true =>
        assert (Hsub : ∀ ps, (∀ kv, kv ∈ ps → kv ∈ props) → f ps = true)
    end.
    { induction ps as [|[k x] ps IHps]; intros Hin; [done|].
      rewrite IHps by (intros kv Hkv; apply Hin; by right).
      rewrite andb_true_r. apply existsb_exists. exists (k, x).
      assert (Hkx : (k, x) ∈ props) by (apply Hin; left).
      split; [by apply list_elem_of_In|]. simpl.
      rewrite String.eqb_refl. simpl.
      rewrite Forall_forall in IH. by apply (IH (k, x)). }
    by apply Hsub.
  - apply Nat.eqb_refl.
Qed.

Lemma params_isEqual_refl p : params_isEqual p p = true.
Proof. apply isEqual_refl. Qed.

Lemma params_isEqual_str_arr s input :
  params_isEqual (PStr s) (PArr input) = false
  ∧ params_isEqual (PArr input) (PStr s) = false.
Proof. done. Qed.

Lemma params_isEqual_str s s' :
  params_isEqual (PStr s) (PStr s') = true ↔ s = s'.
Proof. unfold params_isEqual. simpl. apply String.eqb_eq. Qed.

(** ** The console only grows *)

Lemma add_logs_nil w : add_logs [] w = w.
Proof. destruct w as [db c]. unfold add_logs. simpl. by rewrite app_nil_r. Qed.

Lemma add_logs_app l1 l2 w : add_logs l2 (add_logs l1 w) = add_logs (l1 ++ l2) w.
Proof. unfold add_logs. simpl. by rewrite app_assoc. Qed.

Lemma DB_add_logs l w : DB (add_logs l w) = DB w.
Proof. done. Qed.

(** ** The loops of [findResult] *)

Lemma link_log_silent resolution this i :
  printing this = false → link_log resolution this i = [].
Proof. unfold link_log. by intros ->. Qed.

(** Unfolding one iteration, whatever it decides. *)
Lemma links_loop_step resolution i n this w r c :
  resolution !! i = Some r → currentStack this !! i = Some c →
  links_loop resolution i (S n) (this, w)
  = if link_ok r c
    then links_loop resolution (S i) n
           (this, add_logs (link_log resolution this i) w)
    else (Normal false, (this, add_logs (link_log resolution this i) w)).
Proof.
  intros Hr Hc. simpl. unfold_monad. unfold link_log, link_ok.
  rewrite Hr, Hc.
  destruct (printing this); simpl;
    rewrite ?add_logs_nil;
    destruct (String.eqb (action r) (action c)); simpl; try done;
    destruct (Nat.eqb (params_length (parameters r)) 0); simpl; try done;
    by destruct (params_isEqual (parameters r) (parameters c)).
Qed.

Lemma links_loop_run n : ∀ i resolution this w,
  i + n = length resolution →
  length resolution = length (currentStack this) →
  ∃ logs,
    links_loop resolution i n (this, w)
    = (Normal (links_ok (drop i resolution) (drop i (currentStack this))),
       (this, add_logs logs w))
    ∧ (printing this = false → logs = []).
Proof.
  induction n as [|n IH]; intros i resolution this w Hn Hlen.
  - exists []. rewrite add_logs_nil. split; [|done].
    rewrite drop_ge by lia. done.
  - destruct (lookup_lt_is_Some_2 resolution i) as [r Hr]; [lia|].
    destruct (lookup_lt_is_Some_2 (currentStack this) i) as [c Hc]; [lia|].
    rewrite (links_loop_step _ _ _ _ _ r c Hr Hc).
    rewrite (drop_S _ _ _ Hr), (drop_S _ _ _ Hc).
    unfold links_ok. simpl. fold (links_ok (drop (S i) resolution)
                                    (drop (S i) (currentStack this))).
    destruct (link_ok r c); simpl.
    + destruct (IH (S i) resolution this
                  (add_logs (link_log resolution this i) w)) as (logs & -> & Hs);
        [lia|done|].
      exists (link_log resolution this i ++ logs).
      rewrite add_logs_app. split; [done|].
      intros Hp. by rewrite (Hs Hp), link_log_silent.
    + exists (link_log resolution this i). split; [done|].
      apply link_log_silent.
Qed.

(** Unfolding one iteration of the outer loop. *)
Lemma chains_loop_step index n this w resolution :
  dataArrayArray (DB w) !! index = Some resolution →
  ∃ logs,
    chains_loop index (S n) (this, w)
    = (if accepts (currentStack this) resolution
       then (Normal (last resolution), (this, add_logs logs w))
       else chains_loop (S index) n (this, add_logs logs w))
    ∧ (printing this = false → logs = []).
Proof.
  intros Hres. simpl. unfold_monad. rewrite Hres. unfold accepts.
  destruct (Nat.eqb (length resolution) (length (currentStack this)))
    eqn:Hlen; simpl.
  { apply Nat.eqb_eq in Hlen.
    destruct (links_loop_run (length resolution) 0 resolution this w)
      as (logs & -> & Hs); [done|done|].
    exists logs. split; [|done]. rewrite !drop_0.
    destruct (links_ok resolution (currentStack this)); simpl; [|done].
    rewrite last_lookup.
    replace (pred (length resolution)) with (length resolution - 1) by lia.
    destruct (resolution !! (length resolution - 1)) as [final|] eqn:Hf;
      [|done].
    assert (0 < length resolution) as ->%Nat.ltb_lt.
    { apply lookup_lt_Some in Hf. lia. }
    simpl. by destruct (isMore final). }
  exists []. by rewrite add_logs_nil.
Qed.

Lemma chains_loop_run n : ∀ index this w,
  index + n = length (dataArrayArray (DB w)) →
  ∃ logs,
    chains_loop index n (this, w)
    = (Normal (scan (drop index (dataArrayArray (DB w))) (currentStack this)),
       (this, add_logs logs w))
    ∧ (printing this = false → logs = []).
Proof.
  induction n as [|n IH]; intros index this w Hn.
  - exists []. rewrite add_logs_nil, drop_ge by lia. done.
  - destruct (lookup_lt_is_Some_2 (dataArrayArray (DB w)) index)
      as [resolution Hres]; [lia|].
    destruct (chains_loop_step index n this w resolution Hres)
      as (logs & -> & Hs).
    rewrite (drop_S _ _ _ Hres). unfold scan. simpl.
    destruct (accepts (currentStack this) resolution).
    + by exists logs.
    + destruct (IH (S index) this (add_logs logs w)) as (logs' & -> & Hs');
        [simpl; lia|].
      exists (logs ++ logs'). rewrite add_logs_app. split; [done|].
      intros Hp. by rewrite (Hs Hp), (Hs' Hp).
Qed.

(** [findResult] never throws, returns what [scan] computes, and changes
    nothing but the console (and not even that when [printData] is off). *)
Lemma findResult_run this w :
  ∃ logs,
    findResult (this, w)
    = (Normal (scan (dataArrayArray (DB w)) (currentStack this)),
       (this, add_logs logs w))
    ∧ (printing this = false → logs = []).
Proof.
  unfold findResult. unfold_monad.
  destruct (chains_loop_run (length (dataArrayArray (DB w))) 0 this w)
    as (logs & -> & Hs); [done|].
  exists logs. by rewrite drop_0.
Qed.

Lemma valueOf_run this w :
  ∃ logs,
    valueOf (this, w)
    = (Normal (outcome (dataArrayArray (DB w)) (currentStack this)),
       (this, add_logs logs w))
    ∧ (printing this = false → logs = []).
Proof.
  destruct (findResult_run this w) as (logs & Hf & Hs).
  exists logs. split; [|done].
  unfold valueOf, outcome, bind. rewrite Hf.
  by destruct (scan _ _).
Qed.

Lemma then_run {R1 R2} (resolve : JsVal → R1) (reject : option (JsVal → R2))
    this w :
  ∃ logs,
    then_ resolve reject (this, w)
    = (Normal (adopt (outcome (dataArrayArray (DB w)) (currentStack this))
                 resolve reject),
       (this, add_logs logs w))
    ∧ (printing this = false → logs = []).
Proof.
  destruct (findResult_run this w) as (logs & Hf & Hs).
  exists logs. split; [|done].
  unfold then_, outcome, bind. rewrite Hf. done.
Qed.

Lemma adopt_settle v :
  match adopt v (λ x, x) (Some (λ e : JsVal, e)) with
  | Fulfilled (inl x) => Fulfilled x
  | Fulfilled (inr e) => Rejected e
  | Rejected e => Rejected e
  | Pending => Pending
  end = settle v.
Proof. destruct v as [| | | | | | |id [x|e|]]; done. Qed.

Lemma await_run this w :
  ∃ logs,
    await (this, w)
    = (Normal (settle (outcome (dataArrayArray (DB w)) (currentStack this))),
       (this, add_logs logs w))
    ∧ (printing this = false → logs = []).
Proof.
  destruct (then_run (λ v, v) (Some (λ e : JsVal, e)) this w)
    as (logs & Hf & Hs).
  exists logs. split; [|done].
  unfold await, bind. rewrite Hf, <-adopt_settle.
  by destruct (adopt _ _ _) as [[x|e]|e|].
Qed.

Lemma settle_plain v : is_promise v = false → settle v = Fulfilled v.
Proof. by destruct v. Qed.

Lemma access_run a this w :
  ∃ logs,
    access a (this, w)
    = (Normal (reading (outcome (dataArrayArray (DB w)) (currentStack this))
                 a),
       (this, add_logs logs w))
    ∧ (printing this = false → logs = []).
Proof.
  destruct a; simpl.
  - destruct (valueOf_run this w) as (logs & Hf & Hs).
    exists logs. split; [|done]. unfold bind. by rewrite Hf.
  - destruct (await_run this w) as (logs & Hf & Hs).
    exists logs. split; [|done]. unfold bind. by rewrite Hf.
Qed.

(** ** The summaries against the words of the specification *)

Lemma links_ok_cons r c resolution stack :
  links_ok (r :: resolution) (c :: stack)
  = link_ok r c && links_ok resolution stack.
Proof. done. Qed.

Lemma links_ok_lookup resolution : ∀ stack,
  length resolution = length stack →
  links_ok resolution stack = true
  ↔ (∀ i r c, resolution !! i = Some r → stack !! i = Some c →
       link_ok r c = true).
Proof.
  induction resolution as [|r resolution IH]; intros [|c stack] Hlen;
    simplify_eq/=.
  - split; [|done]. intros _ i r c Hr. by rewrite lookup_nil in Hr.
  - rewrite links_ok_cons, andb_true_iff, (IH stack) by done. split.
    + intros [H0 HS] [|i] r' c' Hr Hc; simplify_eq/=; [done|]. by eapply HS.
    + intros H. split; [by apply (H 0)|].
      intros i r' c' Hr Hc. by apply (H (S i)).
Qed.

Lemma forallb_seq_lookup (f : nat → bool) n :
  forallb f (seq 0 n) = true ↔ (∀ i, i < n → f i = true).
Proof.
  rewrite forallb_forall. split.
  - intros H i Hi. apply H, in_seq. lia.
  - intros H i Hi%in_seq. apply H. lia.
Qed.

(** The four conditions, spelled out. *)
Lemma matches_spec_iff candidate invocation :
  matches_spec candidate invocation = true
  ↔ length candidate = length invocation
    ∧ (∀ i r c, candidate !! i = Some r → invocation !! i = Some c →
         action r = action c)
    ∧ (∀ i r c, candidate !! i = Some r → invocation !! i = Some c →
         params_length (parameters r) = 0
         ∨ params_isEqual (parameters r) (parameters c) = true)
    ∧ (∃ final R, last candidate = Some final
                  ∧ isMore final = false ∧ result final = Some R).
Proof.
  unfold matches_spec.
  rewrite !andb_true_iff, Nat.eqb_eq, !forallb_seq_lookup.
  split.
  - intros [[[Hlen Hb] Hc] Hd]. split_and!; [done| | |].
    + intros i r c Hr Hi. specialize (Hb i (lookup_lt_Some _ _ _ Hr)).
      unfold name_equal_at in Hb. rewrite Hr, Hi in Hb.
      by apply String.eqb_eq.
    + intros i r c Hr Hi. specialize (Hc i (lookup_lt_Some _ _ _ Hr)).
      unfold params_match_at in Hc. rewrite Hr, Hi in Hc.
      apply orb_true_iff in Hc as [?%Nat.eqb_eq|?]; auto.
    + unfold sealed in Hd. destruct (last candidate) as [final|]; [|done].
      apply andb_true_iff in Hd as [Hm Hr%bool_decide_eq_true].
      destruct Hr as [R HR]. exists final, R.
      by destruct (isMore final).
  - intros (Hlen & Hb & Hc & final & R & Hl & Hm & HR). split_and!; [done| | |].
    + intros i Hi.
      destruct (lookup_lt_is_Some_2 candidate i) as [r Hr]; [done|].
      destruct (lookup_lt_is_Some_2 invocation i) as [c Hci]; [lia|].
      unfold name_equal_at. rewrite Hr, Hci. apply String.eqb_eq. eauto.
    + intros i Hi.
      destruct (lookup_lt_is_Some_2 candidate i) as [r Hr]; [done|].
      destruct (lookup_lt_is_Some_2 invocation i) as [c Hci]; [lia|].
      unfold params_match_at. rewrite Hr, Hci. apply orb_true_iff.
      destruct (Hc i r c Hr Hci) as [-> | ->]; auto.
    + unfold sealed. rewrite Hl, Hm, HR. done.
Qed.

Lemma accepts_iff stack resolution :
  accepts stack resolution = true
  ↔ length resolution = length stack
    ∧ (∀ i r c, resolution !! i = Some r → stack !! i = Some c →
         link_ok r c = true)
    ∧ (∃ final, last resolution = Some final ∧ isMore final = false).
Proof.
  unfold accepts. rewrite !andb_true_iff, Nat.eqb_eq. split.
  - intros [[Hlen Hl] Hf]. rewrite links_ok_lookup in Hl by done.
    split_and!; [done..|].
    destruct (last resolution) as [final|]; [|done].
    exists final. by destruct (isMore final).
  - intros (Hlen & Hl & final & Hf & Hm).
    rewrite links_ok_lookup, Hf, Hm by done. done.
Qed.

Lemma link_ok_iff r c :
  link_ok r c = true
  ↔ action r = action c
    ∧ (params_length (parameters r) = 0
       ∨ params_isEqual (parameters r) (parameters c) = true).
Proof.
  unfold link_ok.
  by rewrite andb_true_iff, orb_true_iff, String.eqb_eq, Nat.eqb_eq.
Qed.

(** On a chain in which every final operation has its result, the loop body
    decides exactly conditions (a) to (d). *)
Lemma accepts_matches_spec stack resolution :
  Forall (λ d, isMore d = false → is_Some (result d)) resolution →
  accepts stack resolution = matches_spec resolution stack.
Proof.
  intros Hwf. apply Bool.eq_iff_eq_true.
  rewrite accepts_iff, matches_spec_iff. split.
  - intros (Hlen & Hl & final & Hf & Hm). split_and!; [done| | |].
    + intros i r c Hr Hc. by apply (link_ok_iff r c), (Hl i).
    + intros i r c Hr Hc. by apply (link_ok_iff r c), (Hl i).
    + rewrite Forall_forall in Hwf.
      destruct (Hwf final) as [R HR]; [|done|by exists final, R].
      rewrite last_lookup in Hf. by eapply list_elem_of_lookup_2.
  - intros (Hlen & Hb & Hc & final & R & Hf & Hm & HR). split_and!; [done| |].
    + intros i r c Hr Hi. apply link_ok_iff. eauto.
    + by exists final.
Qed.

Lemma find_first {A} (f : A → bool) pre x post :
  Forall (λ y, f y = false) pre → f x = true →
  find f (pre ++ x :: post) = Some x.
Proof.
  intros Hpre Hx. induction Hpre as [|y pre Hy _ IH]; simpl.
  - by rewrite Hx.
  - by rewrite Hy.
Qed.

Lemma find_none {A} (f : A → bool) l :
  Forall (λ y, f y = false) l → find f l = None.
Proof.
  intros Hl. induction Hl as [|y l Hy _ IH]; simpl; [done|]. by rewrite Hy.
Qed.

Lemma find_accepts_matches_spec store stack :
  store_wf store →
  find (accepts stack) store = find (λ c, matches_spec c stack) store.
Proof.
  intros Hwf. induction Hwf as [|c store Hc _ IH]; simpl; [done|].
  by rewrite (accepts_matches_spec stack c Hc), IH.
Qed.

Lemma store_wf_app store1 store2 :
  store_wf (store1 ++ store2) ↔ store_wf store1 ∧ store_wf store2.
Proof. apply Forall_app. Qed.

(** The code's scan picks the first chain that satisfies (a) to (d). *)
Lemma scan_first_match pre c post stack :
  store_wf (pre ++ c :: post) →
  Forall (λ c', matches_spec c' stack = false) pre →
  matches_spec c stack = true →
  scan (pre ++ c :: post) stack = last c.
Proof.
  intros Hwf Hpre Hc. unfold scan.
  rewrite (find_accepts_matches_spec _ _ Hwf).
  by rewrite (find_first (λ c, matches_spec c stack) pre c post Hpre Hc).
Qed.

Lemma scan_no_match store stack :
  store_wf store →
  Forall (λ c, matches_spec c stack = false) store →
  scan store stack = None.
Proof.
  intros Hwf Hno. unfold scan.
  rewrite (find_accepts_matches_spec _ _ Hwf).
  by rewrite (find_none (λ c, matches_spec c stack) store Hno).
Qed.

(** ** Resolution: the matcher and the two accessors *)

Lemma accesses_run l : ∀ this w,
  ∃ logs,
    accesses l (this, w)
    = (Normal (map (reading (outcome (dataArrayArray (DB w))
                               (currentStack this))) l),
       (this, add_logs logs w))
    ∧ (printing this = false → logs = []).
Proof.
  induction l as [|a l IH]; intros this w; simpl.
  - exists []. by rewrite add_logs_nil.
  - destruct (access_run a this w) as (logs & Ha & Hs).
    destruct (IH this (add_logs logs w)) as (logs' & Hl & Hs').
    exists (logs ++ logs'). unfold bind. rewrite Ha, Hl, add_logs_app.
    split; [done|]. intros Hp. by rewrite (Hs Hp), (Hs' Hp).
Qed.

(** C3: the matcher scans the stored chains in insertion order and returns
    the last operation (and [valueOf] its result) of the first chain that
    satisfies (a) equal length, (b) equal names at every position, (c) empty
    or deep-equal parameters at every position and (d) sealed.  Chains before
    it that fail one of the conditions, unsealed ones included, are skipped;
    chains after it are never considered.  When no chain satisfies the four
    conditions the matcher returns nothing. *)
Theorem findResult_first_sealed_match (this : MockResolve) (w : World) :
  store_wf (dataArrayArray (DB w)) →
  (∀ pre c post,
     dataArrayArray (DB w) = pre ++ c :: post →
     Forall (λ c', matches_spec c' (currentStack this) = false) pre →
     matches_spec c (currentStack this) = true →
     ∃ final R,
       last c = Some final ∧ result final = Some R
       ∧ (findResult (this, w)).1 = Normal (Some final)
       ∧ (valueOf (this, w)).1 = Normal R)
  ∧ (Forall (λ c, matches_spec c (currentStack this) = false)
       (dataArrayArray (DB w)) →
     (findResult (this, w)).1 = Normal None)
  ∧ (∀ c, sealed c = false → matches_spec c (currentStack this) = false).
Proof.
  intros Hwf. split_and!.
  - intros pre c post Hstore Hpre Hc.
    destruct (proj1 (matches_spec_iff _ _) Hc)
      as (_ & _ & _ & final & R & Hl & _ & HR).
    exists final, R. split_and!; [done..| |].
    + destruct (findResult_run this w) as (logs & -> & _). simpl.
      rewrite Hstore, scan_first_match, Hl; [done| |done..].
      by rewrite <-Hstore.
    + destruct (valueOf_run this w) as (logs & -> & _). simpl.
      unfold outcome.
      rewrite Hstore, scan_first_match, Hl; [|by rewrite <-Hstore|done..].
      unfold get_result. by rewrite HR.
  - intros Hno. destruct (findResult_run this w) as (logs & -> & _). simpl.
    by rewrite scan_no_match.
  - intros c Hc. unfold matches_spec. rewrite Hc. apply andb_false_r.
Qed.


(** C6: when no chain of the store satisfies the four conditions against the
    invocation (in particular when the store is empty), neither accessor
    raises and both yield the empty array. *)
Theorem no_match_resolves_to_empty_array (this : MockResolve) (w : World) :
  store_wf (dataArrayArray (DB w)) →
  Forall (λ c, matches_spec c (currentStack this) = false)
    (dataArrayArray (DB w)) →
  (valueOf (this, w)).1 = Normal (JArr [])
  ∧ (await (this, w)).1 = Normal (Fulfilled (JArr []))
  ∧ ¬ raises valueOf (this, w)
  ∧ ¬ raises await (this, w).
Proof.
  intros Hwf Hno.
  assert (Hout : outcome (dataArrayArray (DB w)) (currentStack this) = JArr []).
  { unfold outcome. by rewrite scan_no_match. }
  destruct (valueOf_run this w) as (logs & Hv & _).
  destruct (await_run this w) as (logs' & Ha & _).
  unfold raises. rewrite Hv, Ha, Hout. simpl.
  split_and!; [done..| |]; by intros [e He].
Qed.

(** C7 (as the code has it): on a fixed invocation and store both accessors
    hand out the one value [v] that the matcher finds.  [valueOf] returns
    [v]; [then] resolves [Promise.resolve(v)], so an await yields [v] itself
    when [v] is not a promise and what [v] settles to when it is one; and in
    every sequence of repeated or alternating accesses each accessor reads
    the same every time. *)
Theorem accessors_agree (this : MockResolve) (w : World) :
  ∃ v,
    (valueOf (this, w)).1 = Normal v
    ∧ (await (this, w)).1 = Normal (settle v)
    ∧ (is_promise v = false → (await (this, w)).1 = Normal (Fulfilled v))
    ∧ (∀ (R1 R2 : Type) (resolve : JsVal → R1)
         (reject : option (JsVal → R2)),
         (then_ resolve reject (this, w)).1 = Normal (adopt v resolve reject)
         ∧ (is_promise v = false →
            (then_ resolve reject (this, w)).1
            = Normal (Fulfilled (inl (resolve v)))))
    ∧ (∀ l : list Access,
         (accesses l (this, w)).1 = Normal (map (reading v) l)).
Proof.
  exists (outcome (dataArrayArray (DB w)) (currentStack this)). split_and!.
  - by destruct (valueOf_run this w) as (logs & -> & _).
  - by destruct (await_run this w) as (logs & -> & _).
  - intros Hp. destruct (await_run this w) as (logs & -> & _).
    simpl. by rewrite settle_plain.
  - intros R1 R2 resolve reject.
    destruct (then_run resolve reject this w) as (logs & -> & _).
    split; [done|]. intros Hp. simpl.
    by destruct (outcome _ _).
  - intros l. by destruct (accesses_run l this w) as (logs & -> & _).
Qed.

(** C8: running the matcher, through [findResult], [valueOf] or [then],
    leaves the expectation store and the invocation chain as they were (only
    the console may grow, and only when [printData] is set), so a second run
    on the state the first one left gives the same answer. *)
Theorem resolution_leaves_data_unchanged (this : MockResolve) (w : World) :
  ((findResult (this, w)).2.1 = this
   ∧ DB (findResult (this, w)).2.2 = DB w)
  ∧ ((valueOf (this, w)).2.1 = this
     ∧ DB (valueOf (this, w)).2.2 = DB w)
  ∧ (∀ (R1 R2 : Type) (resolve : JsVal → R1) (reject : option (JsVal → R2)),
       (then_ resolve reject (this, w)).2.1 = this
       ∧ DB (then_ resolve reject (this, w)).2.2 = DB w)
  ∧ (printing this = false →
     (findResult (this, w)).2 = (this, w)
     ∧ (valueOf (this, w)).2 = (this, w)
     ∧ (await (this, w)).2 = (this, w))
  ∧ (findResult (findResult (this, w)).2).1 = (findResult (this, w)).1
  ∧ (valueOf (valueOf (this, w)).2).1 = (valueOf (this, w)).1
  ∧ (await (await (this, w)).2).1 = (await (this, w)).1.
Proof.
  destruct (findResult_run this w) as (lf & Hf & Hsf).
  destruct (valueOf_run this w) as (lv & Hv & Hsv).
  destruct (await_run this w) as (la & Ha & Hsa).
  split_and!.
  - by rewrite Hf.
  - by rewrite Hf.
  - by rewrite Hv.
  - by rewrite Hv.
  - intros R1 R2 resolve reject.
    by destruct (then_run resolve reject this w) as (lt & -> & _).
  - intros Hp. rewrite Hf, Hv, Ha, (Hsf Hp), (Hsv Hp), (Hsa Hp). simpl.
    by rewrite add_logs_nil.
  - rewrite Hf. simpl.
    by destruct (findResult_run this (add_logs lf w)) as (l' & -> & _).
  - rewrite Hv. simpl.
    by destruct (valueOf_run this (add_logs lv w)) as (l' & -> & _).
  - rewrite Ha. simpl.
    by destruct (await_run this (add_logs la w)) as (l' & -> & _).
Qed.

(** ** Recording expectations *)

Lemma with_chains_id w : with_chains (dataArrayArray (DB w)) w = w.
Proof. by destruct w as [[chains cfg] c]. Qed.

Lemma with_chains_twice chains chains' w :
  with_chains chains' (with_chains chains w) = with_chains chains' w.
Proof. done. Qed.

Lemma alter_is_insert {A} (f : A → A) (l : list A) i x :
  l !! i = Some x → alter f i l = <[i:=f x]> l.
Proof.
  revert i. induction l as [|y l IH]; intros [|i] Hi; simplify_eq/=; [done|].
  f_equal. by apply IH.
Qed.

Lemma insert_snoc {A} (l : list A) x y : <[length l:=x]> (l ++ [y]) = l ++ [x].
Proof. induction l as [|z l IH]; simpl; [done|]. by rewrite IH. Qed.

Lemma lookup_snoc {A} (l : list A) y : (l ++ [y]) !! length l = Some y.
Proof. by rewrite lookup_app_r, Nat.sub_diag. Qed.

Lemma dataArray_push_run this dataToAdd w c :
  dataArrayArray (DB w) !! dataArray this = Some c →
  dataArray_push this dataToAdd w
  = (Normal tt,
     with_chains (<[dataArray this := c ++ [dataToAdd]]> (dataArrayArray (DB w)))
       w).
Proof.
  intros Hc. unfold dataArray_push. unfold_monad. rewrite Hc.
  unfold set_chains. by rewrite (alter_is_insert _ _ _ c Hc).
Qed.

Lemma MockQuery_call_run name input this w c :
  dataArrayArray (DB w) !! dataArray this = Some c →
  MockQuery_call name input this w
  = (Normal this,
     with_chains
       (<[dataArray this := c ++ [CraftData name (PArr input) true]]>
          (dataArrayArray (DB w))) w).
Proof.
  intros Hc. unfold MockQuery_call, bind.
  by rewrite (dataArray_push_run _ _ _ c Hc).
Qed.

Lemma MockQuery_calls_run ops : ∀ this w c,
  dataArrayArray (DB w) !! dataArray this = Some c →
  MockQuery_calls ops this w
  = (Normal this,
     with_chains
       (<[dataArray this := c ++ map craft ops]> (dataArrayArray (DB w))) w).
Proof.
  induction ops as [|op ops IH]; intros this w c Hc; simpl.
  - rewrite app_nil_r, list_insert_id, with_chains_id by done. done.
  - unfold bind. rewrite (MockQuery_call_run _ _ _ _ c Hc).
    rewrite (IH _ _ (c ++ [craft op])).
    + simpl. rewrite list_insert_insert_eq, <-app_assoc. done.
    + simpl. apply list_lookup_insert_eq. by eapply lookup_lt_Some.
Qed.

Lemma mQFunc_run tableName w :
  mQFunc tableName w
  = (Normal {| dataArray := length (dataArrayArray (DB w)) |},
     with_chains (dataArrayArray (DB w) ++ [seed_ops tableName]) w).
Proof.
  unfold mQFunc, MockQuery_new, seed_ops. unfold_monad.
  destruct tableName as [name|]; [|done].
  destruct (truthy (Some name)); [|done].
  unfold bind.
  erewrite dataArray_push_run; last first.
  { simpl. apply lookup_snoc. }
  simpl. unfold with_chains. simpl. by rewrite insert_snoc.
Qed.

Lemma mQFunc_raw_run text w :
  mQFunc_raw (Normal text) w = mQFunc (Some (inputString text)) w.
Proof. done. Qed.

(** When the conversion throws, the empty array stays behind. *)
Lemma mQFunc_raw_throw e w :
  mQFunc_raw (Throw e) w
  = (Throw e, with_chains (dataArrayArray (DB w) ++ [[]]) w).
Proof. done. Qed.

Lemma mRFunc_raw_run text w :
  mRFunc_raw (Normal text) w = Normal (mRFunc (Some (inputString text)) w).
Proof. done. Qed.

Lemma seal_seal data1 data2 d : seal data2 (seal data1 d) = seal data2 d.
Proof. done. Qed.

Lemma RESOLVE_run data this w c d :
  dataArrayArray (DB w) !! dataArray this = Some (c ++ [d]) →
  RESOLVE data this w
  = (Normal tt,
     with_chains
       (<[dataArray this := c ++ [seal data d]]> (dataArrayArray (DB w))) w).
Proof.
  intros Hc. unfold RESOLVE. unfold_monad. rewrite Hc.
  assert (Hlen : length (c ++ [d]) - 1 = length c).
  { rewrite length_app. simpl. lia. }
  rewrite Hlen, lookup_snoc. unfold set_chains.
  rewrite (alter_is_insert _ _ _ _ Hc).
  by rewrite (alter_is_insert _ _ _ _ (lookup_snoc c d)), insert_snoc.
Qed.

Lemma RESOLVE_empty data this w :
  dataArrayArray (DB w) !! dataArray this = Some [] →
  RESOLVE data this w = (Throw TypeError, w).
Proof. intros Hc. unfold RESOLVE. unfold_monad. by rewrite Hc. Qed.

(** A whole expectation, from the factory call to [RESOLVE]. *)
Lemma expect_run tableName ops data w c d :
  seed_ops tableName ++ map craft ops = c ++ [d] →
  expect tableName ops data w
  = (Normal tt,
     with_chains (dataArrayArray (DB w) ++ [c ++ [seal data d]]) w).
Proof.
  intros Hcd. unfold expect, bind. rewrite mQFunc_run.
  assert (Hnew : (dataArrayArray (DB w) ++ [seed_ops tableName])
                   !! length (dataArrayArray (DB w))
                 = Some (seed_ops tableName)).
  { apply lookup_snoc. }
  rewrite (MockQuery_calls_run ops _ _ (seed_ops tableName)) by done.
  simpl. rewrite Hcd.
  erewrite RESOLVE_run; last first.
  { simpl. apply list_lookup_insert_eq. rewrite length_app. simpl. lia. }
  simpl. unfold with_chains. simpl.
  by rewrite list_insert_insert_eq, insert_snoc.
Qed.

(** An expectation without any operation cannot be sealed. *)
Lemma expect_empty tableName data w :
  truthy tableName = false →
  expect tableName [] data w
  = (Throw TypeError, with_chains (dataArrayArray (DB w) ++ [[]]) w).
Proof.
  intros Hf. unfold expect, bind. rewrite mQFunc_run. simpl.
  assert (Hseed : seed_ops tableName = []).
  { unfold seed_ops. destruct tableName; [|done]. by rewrite Hf. }
  rewrite Hseed. apply RESOLVE_empty. simpl. apply lookup_snoc.
Qed.

(** ** Recording an invocation *)

Lemma MockResolve_new_stack cfg tableName :
  currentStack (MockResolve_new cfg tableName) = seed_ops tableName.
Proof. done. Qed.

Lemma MockResolve_call_run name input this w :
  ∃ logs,
    MockResolve_call name input (this, w)
    = (Normal tt,
       ({| currentStack := currentStack this ++ [CraftData name (PArr input) true];
           mr_config := mr_config this |},
        add_logs logs w))
    ∧ (printing this = false → logs = []).
Proof.
  unfold MockResolve_call, currentStack_push. unfold_monad.
  destruct (printing this); simpl.
  - by eexists.
  - exists []. by rewrite add_logs_nil.
Qed.

Lemma MockResolve_calls_run ops : ∀ this w,
  ∃ logs,
    MockResolve_calls ops (this, w)
    = (Normal tt,
       ({| currentStack := currentStack this ++ map craft ops;
           mr_config := mr_config this |},
        add_logs logs w))
    ∧ (printing this = false → logs = []).
Proof.
  induction ops as [|op ops IH]; intros this w; simpl.
  - exists []. rewrite add_logs_nil, app_nil_r. by destruct this.
  - destruct (MockResolve_call_run op.1 op.2 this w) as (logs & Hc & Hs).
    unfold bind. rewrite Hc.
    match goal with
    | |- context [MockResolve_calls ops (?this', ?w')] =>
        destruct (IH this' w') as (logs' & -> & Hs')
    end.
    exists (logs ++ logs'). simpl. rewrite add_logs_app, <-app_assoc.
    split; [done|]. intros Hp. by rewrite (Hs Hp), (Hs' Hp).
Qed.

(** ** Reachable stores are well formed *)

Lemma store_wf_nil : store_wf [].
Proof. constructor. Qed.

Lemma store_wf_mQFunc tableName w :
  store_wf (dataArrayArray (DB w)) →
  store_wf (dataArrayArray (DB (mQFunc tableName w).2)).
Proof.
  intros Hwf. rewrite mQFunc_run. simpl. apply store_wf_app. split; [done|].
  constructor; [|constructor]. unfold seed_ops.
  destruct tableName as [name|]; [|constructor].
  destruct (truthy (Some name)); repeat constructor. done.
Qed.

Lemma store_wf_call name input this w :
  store_wf (dataArrayArray (DB w)) →
  store_wf (dataArrayArray (DB (MockQuery_call name input this w).2)).
Proof.
  intros Hwf.
  destruct (dataArrayArray (DB w) !! dataArray this) as [c|] eqn:Hc.
  - rewrite (MockQuery_call_run _ _ _ _ c Hc). simpl.
    apply Forall_insert; [done|]. apply Forall_app. split.
    + unfold store_wf in Hwf. rewrite Forall_forall in Hwf.
      apply Hwf. by eapply list_elem_of_lookup_2.
    + by repeat constructor.
  - unfold MockQuery_call, dataArray_push. unfold_monad. by rewrite Hc.
Qed.

Lemma store_wf_RESOLVE data this w :
  store_wf (dataArrayArray (DB w)) →
  store_wf (dataArrayArray (DB (RESOLVE data this w).2)).
Proof.
  intros Hwf.
  destruct (dataArrayArray (DB w) !! dataArray this) as [c|] eqn:Hc.
  - destruct c as [|d c _] using rev_ind.
    + by rewrite RESOLVE_empty.
    + rewrite (RESOLVE_run _ _ _ c d Hc). simpl.
      apply Forall_insert; [done|]. apply Forall_app. split.
      * unfold store_wf in Hwf. rewrite Forall_forall in Hwf.
        assert (Hcd : Forall (λ d, isMore d = false → is_Some (result d))
                        (c ++ [d])).
        { apply Hwf. by eapply list_elem_of_lookup_2. }
        by apply Forall_app in Hcd as [? _].
      * repeat constructor. by eexists.
  - unfold RESOLVE. unfold_monad. by rewrite Hc.
Qed.

Lemma reachable_store_wf w : reachable w → store_wf (dataArrayArray (DB w)).
Proof.
  induction 1 as [cfg|w tn _ IH|w text _ IH|w name input this _ IH
                 |w data this _ IH|w lines _ IH].
  - apply store_wf_nil.
  - by apply store_wf_mQFunc.
  - destruct text as [text|e].
    + rewrite mQFunc_raw_run. by apply store_wf_mQFunc.
    + rewrite mQFunc_raw_throw. simpl. apply store_wf_app.
      split; [done|]. by repeat constructor.
  - by apply store_wf_call.
  - by apply store_wf_RESOLVE.
  - done.
Qed.

(** ** Sealing *)

(** C9: [RESOLVE] writes to the element at index [length - 1].  On a chain
    that holds at least one operation it sets [isMore] to false and attaches
    the result on the last element, leaving the rest alone, and completes
    normally.  On the empty chain that the factory makes when it is called
    without a table name nothing guards the write and [RESOLVE] throws. *)
Theorem RESOLVE_needs_an_operation (w : World) (data : JsVal)
    (this : MockQuery) (c : list Data) (d : Data) :
  (dataArrayArray (DB w) !! dataArray this = Some (c ++ [d]) →
   RESOLVE data this w
   = (Normal tt,
      with_chains
        (<[dataArray this := c ++ [seal data d]]> (dataArrayArray (DB w))) w)
   ∧ isMore (seal data d) = false
   ∧ result (seal data d) = Some data
   ∧ action (seal data d) = action d
   ∧ parameters (seal data d) = parameters d)
  ∧ (∃ q w1,
       mQFunc None w = (Normal q, w1)
       ∧ dataArrayArray (DB w1) !! dataArray q = Some []
       ∧ RESOLVE data q w1 = (Throw TypeError, w1)).
Proof.
  split.
  - intros Hc. by rewrite (RESOLVE_run _ _ _ c d Hc).
  - rewrite mQFunc_run. eexists _, _. split; [done|]. simpl.
    assert (Hnew : (dataArrayArray (DB w) ++ [[]])
                     !! length (dataArrayArray (DB w)) = Some [])
      by apply lookup_snoc.
    split; [done|]. by apply RESOLVE_empty.
Qed.

(** C1 (as the code has it): on a builder whose chain is already sealed a
    second [RESOLVE] does not fail, it overwrites the result of the last
    operation; a fluent operation after [RESOLVE] does not fail either, it
    appends a new operation with [isMore] true behind the sealed one. *)
Theorem RESOLVE_again_and_append_after (w : World) (data1 : JsVal)
    (this : MockQuery) (c : list Data) (d : Data) :
  dataArrayArray (DB w) !! dataArray this = Some (c ++ [d]) →
  ∃ w1,
    RESOLVE data1 this w = (Normal tt, w1)
    ∧ dataArrayArray (DB w1) !! dataArray this = Some (c ++ [seal data1 d])
    ∧ (∀ data2,
         RESOLVE data2 this w1
         = (Normal tt,
            with_chains
              (<[dataArray this := c ++ [seal data2 d]]>
                 (dataArrayArray (DB w))) w)
         ∧ ¬ raises (RESOLVE data2 this) w1)
    ∧ (∀ name input,
         MockQuery_call name input this w1
         = (Normal this,
            with_chains
              (<[dataArray this :=
                   c ++ [seal data1 d; CraftData name (PArr input) true]]>
                 (dataArrayArray (DB w))) w)
         ∧ ¬ raises (MockQuery_call name input this) w1).
Proof.
  intros Hc. eexists. split; [by apply RESOLVE_run|].
  assert (Hc1 : <[dataArray this := c ++ [seal data1 d]]>
                  (dataArrayArray (DB w)) !! dataArray this
                = Some (c ++ [seal data1 d])).
  { apply list_lookup_insert_eq. by eapply lookup_lt_Some. }
  split; [done|]. split.
  - intros data2. unfold raises.
    erewrite RESOLVE_run by exact Hc1. simpl.
    rewrite list_insert_insert_eq. split; [done|]. by intros [e He].
  - intros name input. unfold raises.
    erewrite MockQuery_call_run by exact Hc1. simpl.
    rewrite list_insert_insert_eq, <-app_assoc. split; [done|].
    by intros [e He].
Qed.

(** ** Replaying an expectation *)

Lemma same_ops_lookup c1 c2 i d1 d2 :
  same_ops c1 c2 → c1 !! i = Some d1 → c2 !! i = Some d2 →
  action d1 = action d2 ∧ parameters d1 = parameters d2.
Proof.
  unfold same_ops. intros Hops H1 H2.
  assert (Hi : map (λ d, (action d, parameters d)) c1 !! i
               = map (λ d, (action d, parameters d)) c2 !! i) by by rewrite Hops.
  change (map ?f ?l) with (f <$> l) in Hi.
  rewrite !list_lookup_fmap, H1, H2 in Hi. by simplify_eq/=.
Qed.

Lemma same_ops_length c1 c2 : same_ops c1 c2 → length c1 = length c2.
Proof.
  unfold same_ops. intros Hops.
  by rewrite <-(length_map (λ d, (action d, parameters d)) c1), Hops, length_map.
Qed.

Lemma same_ops_matches stack candidate :
  same_ops stack candidate → sealed candidate = true →
  matches_spec candidate stack = true.
Proof.
  intros Hops Hs. apply matches_spec_iff. split_and!.
  - symmetry. by apply same_ops_length.
  - intros i r c Hr Hc. by destruct (same_ops_lookup _ _ i c r Hops Hc Hr).
  - intros i r c Hr Hc. right.
    destruct (same_ops_lookup _ _ i c r Hops Hc Hr) as [_ ->].
    apply params_isEqual_refl.
  - unfold sealed in Hs. destruct (last candidate) as [final|]; [|done].
    apply andb_true_iff in Hs as [Hm [R HR]%bool_decide_eq_true].
    exists final, R. by destruct (isMore final).
Qed.

Lemma outcome_first_match pre c post stack final R :
  store_wf (pre ++ c :: post) →
  Forall (λ c', matches_spec c' stack = false) pre →
  matches_spec c stack = true →
  last c = Some final → result final = Some R →
  outcome (pre ++ c :: post) stack = R.
Proof.
  intros Hwf Hpre Hc Hl HR. unfold outcome.
  rewrite scan_first_match, Hl by done. unfold get_result. by rewrite HR.
Qed.

(** C4 (as the code has it): for a sealed chain [C] registered with result
    [R], an invocation with exactly [C]'s operation names and parameters
    resolves to [R] through [valueOf], provided no chain registered before
    [C] satisfies the four conditions against that invocation.  Through
    [then] it then yields what [Promise.resolve(R)] settles to: [R] itself
    when [R] is not a promise, the settlement of [R] when it is one. *)
Theorem replayed_chain_resolves_to_its_result (this : MockResolve) (w : World)
    (pre post : list (list Data)) (chain : list Data)
    (final : Data) (R : JsVal) :
  dataArrayArray (DB w) = pre ++ chain :: post →
  store_wf (dataArrayArray (DB w)) →
  last chain = Some final → isMore final = false → result final = Some R →
  same_ops (currentStack this) chain →
  Forall (λ c, matches_spec c (currentStack this) = false) pre →
  (valueOf (this, w)).1 = Normal R
  ∧ (await (this, w)).1 = Normal (settle R)
  ∧ (is_promise R = false → (await (this, w)).1 = Normal (Fulfilled R)).
Proof.
  intros Hstore Hwf Hl Hm HR Hops Hpre.
  assert (Hs : sealed chain = true).
  { unfold sealed. by rewrite Hl, Hm, HR. }
  assert (Hout : outcome (dataArrayArray (DB w)) (currentStack this) = R).
  { rewrite Hstore. eapply outcome_first_match; eauto.
    - by rewrite <-Hstore.
    - by apply same_ops_matches. }
  destruct (valueOf_run this w) as (logs & -> & _).
  destruct (await_run this w) as (logs' & -> & _).
  rewrite Hout. split_and!; [done..|].
  intros Hp. simpl. by rewrite settle_plain.
Qed.

(** ** Seeds *)

Lemma length_zero_empty s : String.length s = 0 → s = "".
Proof. by destruct s. Qed.

Lemma inputString_nonempty text : inputString text ≠ "".
Proof. done. Qed.

Lemma truthy_nonempty t : t ≠ "" → truthy (Some t) = true.
Proof.
  intros Ht. unfold truthy. apply negb_true_iff.
  by apply String.eqb_neq.
Qed.

Lemma seed_ops_nonempty t :
  t ≠ "" → seed_ops (Some t) = [CraftData TABLE (PStr t) true].
Proof. intros Ht. unfold seed_ops. by rewrite truthy_nonempty. Qed.

(** A chain whose first operation fails the link check against the first
    operation of the invocation is never returned. *)
Lemma accepts_head_mismatch r rest c0 tail :
  link_ok r c0 = false → accepts (c0 :: tail) (r :: rest) = false.
Proof.
  intros Hr. unfold accepts. rewrite links_ok_cons, Hr. simpl.
  by rewrite andb_false_r.
Qed.

Lemma matches_spec_head_mismatch r rest c0 tail :
  link_ok r c0 = false → matches_spec (r :: rest) (c0 :: tail) = false.
Proof.
  intros Hr. apply not_true_is_false. intros Hm.
  apply matches_spec_iff in Hm as (_ & Hb & Hc & _).
  assert (link_ok r c0 = true); [|congruence].
  apply link_ok_iff. split; [by apply (Hb 0)|by apply (Hc 0)].
Qed.

Lemma scan_heads_mismatch store c0 tail :
  Forall (λ c, ∃ r rest, c = r :: rest ∧ link_ok r c0 = false) store →
  scan store (c0 :: tail) = None.
Proof.
  intros Hst. unfold scan. rewrite find_none; [done|].
  eapply Forall_impl; [exact Hst|].
  intros c (r & rest & -> & Hr). by apply accepts_head_mismatch.
Qed.

(** A seed for one string against a seed for another. *)
Lemma link_ok_seeds r c s s' :
  parameters r = PStr s → parameters c = PStr s' →
  s ≠ "" → s ≠ s' → link_ok r c = false.
Proof.
  intros Hr Hc Hne Hdiff. unfold link_ok. rewrite Hr, Hc. simpl.
  apply andb_false_iff. right. apply orb_false_iff. split.
  - apply Nat.eqb_neq. intros Hl. by apply Hne, length_zero_empty.
  - apply not_true_is_false. by intros ?%params_isEqual_str.
Qed.

(** A seed against what [table(t)] records, both ways. *)
Lemma link_ok_seed_call r c s input :
  parameters r = PStr s → parameters c = PArr input →
  s ≠ "" → link_ok r c = false.
Proof.
  intros Hr Hc Hne. unfold link_ok. rewrite Hr, Hc. simpl.
  apply andb_false_iff. right. apply orb_false_iff. split; [|done].
  apply Nat.eqb_neq. intros Hl. by apply Hne, length_zero_empty.
Qed.

Lemma link_ok_call_seed r c s x input :
  parameters r = PArr (x :: input) → parameters c = PStr s →
  link_ok r c = false.
Proof.
  intros Hr Hc. unfold link_ok. rewrite Hr, Hc. simpl.
  apply andb_false_r.
Qed.

Lemma no_match_between_seeds s s' candidate stack :
  s ≠ "" → s ≠ s' →
  seeded_with s candidate → seeded_with s' stack →
  accepts stack candidate = false ∧ matches_spec candidate stack = false.
Proof.
  intros Hne Hdiff (r & rest & -> & _ & Hr) (c & tail & -> & _ & Hc).
  assert (Hl : link_ok r c = false) by by eapply link_ok_seeds.
  split; [by apply accepts_head_mismatch|by apply matches_spec_head_mismatch].
Qed.

Lemma findResult_no_seed_match s s' this w :
  s ≠ "" → s ≠ s' →
  Forall (seeded_with s) (dataArrayArray (DB w)) →
  seeded_with s' (currentStack this) →
  (findResult (this, w)).1 = Normal None
  ∧ (valueOf (this, w)).1 = Normal (JArr []).
Proof.
  intros Hne Hdiff Hst (c & tail & Hstack & _ & Hc).
  assert (Hscan : scan (dataArrayArray (DB w)) (currentStack this) = None).
  { rewrite Hstack. apply scan_heads_mismatch.
    eapply Forall_impl; [exact Hst|].
    intros ch (r & rest & -> & _ & Hr). exists r, rest.
    split; [done|]. by eapply link_ok_seeds. }
  destruct (findResult_run this w) as (logs & -> & _).
  destruct (valueOf_run this w) as (logs' & -> & _).
  unfold outcome. by rewrite Hscan.
Qed.

(** C2 (as the code has it): the raw factory seeds its chain with an
    operation of the same name as the table seed, ["table"], whose
    parameters are the string ["raw:"] followed by the raw text.  A chain
    seeded with raw text [r] and a chain seeded with a non-empty table name
    [t] never match each other, in either role, unless [t] is that very
    string. *)
Theorem raw_seed_is_a_table_seed (this : MockResolve) (w : World)
    (r t : string) :
  t ≠ "" → t ≠ inputString r →
  (seed_ops (Some (inputString r))
   = [CraftData TABLE (PStr (inputString r)) true]
   ∧ seed_ops (Some t) = [CraftData TABLE (PStr t) true]
   ∧ mQFunc_raw (Normal r) w
     = (Normal {| dataArray := length (dataArrayArray (DB w)) |},
        with_chains
          (dataArrayArray (DB w)
           ++ [[CraftData TABLE (PStr (inputString r)) true]]) w)
   ∧ (∃ proxy,
        mRFunc_raw (Normal r) w = Normal proxy
        ∧ currentStack proxy
          = [CraftData TABLE (PStr (inputString r)) true]))
  ∧ (∀ candidate stack,
       seeded_with t candidate → seeded_with (inputString r) stack →
       accepts stack candidate = false ∧ matches_spec candidate stack = false)
  ∧ (∀ candidate stack,
       seeded_with (inputString r) candidate → seeded_with t stack →
       accepts stack candidate = false ∧ matches_spec candidate stack = false)
  ∧ (Forall (seeded_with t) (dataArrayArray (DB w)) →
     seeded_with (inputString r) (currentStack this) →
     (findResult (this, w)).1 = Normal None
     ∧ (valueOf (this, w)).1 = Normal (JArr []))
  ∧ (Forall (seeded_with (inputString r)) (dataArrayArray (DB w)) →
     seeded_with t (currentStack this) →
     (findResult (this, w)).1 = Normal None
     ∧ (valueOf (this, w)).1 = Normal (JArr [])).
Proof.
  intros Ht Hdiff. split_and!.
  - done.
  - by apply seed_ops_nonempty.
  - by rewrite mQFunc_raw_run, mQFunc_run.
  - eexists. by rewrite mRFunc_raw_run.
  - intros candidate stack. by apply no_match_between_seeds.
  - intros candidate stack.
    apply no_match_between_seeds; [apply inputString_nonempty|done].
  - by apply findResult_no_seed_match.
  - apply findResult_no_seed_match; [apply inputString_nonempty|done].
Qed.

(** ** An expectation and its replay through the two factories *)

Lemma built_ops_open tableName ops :
  Forall (λ d, isMore d = true) (seed_ops tableName ++ map craft ops).
Proof.
  apply Forall_app. split.
  - unfold seed_ops. destruct tableName as [name|]; [|constructor].
    destruct (truthy (Some name)); repeat constructor.
  - induction ops as [|op ops IH]; simpl; by constructor.
Qed.

Lemma same_ops_seal c d data : same_ops (c ++ [d]) (c ++ [seal data d]).
Proof. unfold same_ops. by rewrite !map_app. Qed.

Lemma sealed_snoc_seal c d data : sealed (c ++ [seal data d]) = true.
Proof. unfold sealed. by rewrite last_snoc. Qed.

(** Registering [EXPECT()(tableName).ops.RESOLVE(data)] and then reading
    [MockDB()(tableName).ops] gives [data], when nothing registered before
    matches that invocation. *)
Lemma expect_then_replay tableName ops data w c d :
  seed_ops tableName ++ map craft ops = c ++ [d] →
  store_wf (dataArrayArray (DB w)) →
  Forall (λ c', matches_spec c' (c ++ [d]) = false) (dataArrayArray (DB w)) →
  let w1 := (expect tableName ops data w).2 in
  dataArrayArray (DB w1) = dataArrayArray (DB w) ++ [c ++ [seal data d]]
  ∧ accepts (c ++ [d]) (c ++ [seal data d]) = true
  ∧ (bind (MockResolve_calls ops) (λ _, valueOf) (mRFunc tableName w1, w1)).1
    = Normal data
  ∧ (bind (MockResolve_calls ops) (λ _, await) (mRFunc tableName w1, w1)).1
    = Normal (settle data).
Proof.
  intros Hcd Hwf Hno. rewrite (expect_run _ _ _ _ c d Hcd). simpl.
  set (w1 := with_chains (dataArrayArray (DB w) ++ [c ++ [seal data d]]) w).
  assert (Hopen : Forall (λ d, isMore d = false → is_Some (result d)) c).
  { pose proof (built_ops_open tableName ops) as Hb. rewrite Hcd in Hb.
    apply Forall_app in Hb as [Hb _].
    eapply Forall_impl; [exact Hb|]. intros x Hx Hx'. congruence. }
  assert (Hwf1 : store_wf (dataArrayArray (DB w) ++ [c ++ [seal data d]])).
  { apply store_wf_app. split; [done|]. constructor; [|constructor].
    apply Forall_app. split; [done|]. repeat constructor. by eexists. }
  assert (Hm : matches_spec (c ++ [seal data d]) (c ++ [d]) = true).
  { apply same_ops_matches; [apply same_ops_seal|apply sealed_snoc_seal]. }
  assert (Hout : outcome (dataArrayArray (DB w) ++ [c ++ [seal data d]])
                   (c ++ [d]) = data).
  { apply (outcome_first_match _ _ [] _ (seal data d));
      [done|done|done|apply last_snoc|done]. }
  assert (Hstk : currentStack (mRFunc tableName w1) ++ map craft ops
                 = c ++ [d]) by done.
  split_and!.
  - done.
  - rewrite accepts_matches_spec; [done|].
    apply Forall_app. split; [done|]. repeat constructor. by eexists.
  - unfold bind.
    destruct (MockResolve_calls_run ops (mRFunc tableName w1) w1)
      as (logs & -> & _).
    match goal with
    | |- (valueOf (?this', ?w')).1 = _ =>
        destruct (valueOf_run this' w') as (logs' & -> & _)
    end.
    cbn [fst snd currentStack]. rewrite Hstk, DB_add_logs.
    repeat f_equal. exact Hout.
  - unfold bind.
    destruct (MockResolve_calls_run ops (mRFunc tableName w1) w1)
      as (logs & -> & _).
    match goal with
    | |- (await (?this', ?w')).1 = _ =>
        destruct (await_run this' w') as (logs' & -> & _)
    end.
    cbn [fst snd currentStack]. rewrite Hstk, DB_add_logs.
    repeat f_equal. exact Hout.
Qed.

Lemma snoc_of_cons {A} (x : A) (l : list A) : ∃ c d, x :: l = c ++ [d].
Proof.
  revert x. induction l as [|y l IH]; intros x.
  - by exists [], x.
  - destruct (IH y) as (c & d & ->). by exists (x :: c), d.
Qed.

Lemma findResult_no_head_match this w c0 tail :
  currentStack this = c0 :: tail →
  Forall (λ c, ∃ r rest, c = r :: rest ∧ link_ok r c0 = false)
    (dataArrayArray (DB w)) →
  (findResult (this, w)).1 = Normal None
  ∧ (valueOf (this, w)).1 = Normal (JArr []).
Proof.
  intros Hstack Hst.
  assert (Hscan : scan (dataArrayArray (DB w)) (currentStack this) = None).
  { rewrite Hstack. by apply scan_heads_mismatch. }
  destruct (findResult_run this w) as (logs & -> & _).
  destruct (valueOf_run this w) as (logs' & -> & _).
  unfold outcome. by rewrite Hscan.
Qed.

(** C10 (as the code has it): for every non-empty string [t] the factory
    call seeds the chain with an operation whose parameters are the bare
    string [t], while the fluent method [table(t)] records the array [[t]].
    Hence an expectation started as [EXPECT()(t)] is matched by the
    invocation started as [MockDB()(t)] with the same operations, but it
    never matches an invocation whose first operation comes from calling
    [table(t)] on an unseeded proxy, nor the other way round. *)
Theorem table_seed_is_a_bare_string (this : MockResolve) (w : World)
    (cfg : option Config) (t : string) (ops : list Call) (data : JsVal) :
  t ≠ "" →
  (seed_ops (Some t) = [CraftData TABLE (PStr t) true]
   ∧ currentStack (mRFunc (Some t) w) = [CraftData TABLE (PStr t) true]
   ∧ mQFunc (Some t) w
     = (Normal {| dataArray := length (dataArrayArray (DB w)) |},
        with_chains
          (dataArrayArray (DB w) ++ [[CraftData TABLE (PStr t) true]]) w)
   ∧ currentStack (MockResolve_call TABLE [JStr t] (mRFunc None w, w)).2.1
     = [CraftData TABLE (PArr [JStr t]) true]
   ∧ craft (TABLE, [JStr t]) = CraftData TABLE (PArr [JStr t]) true)
  ∧ (let w1 := (expect (Some t) ops data (World_new cfg)).2 in
     (∃ chain, dataArrayArray (DB w1) = [chain] ∧ seeded_with t chain)
     ∧ (bind (MockResolve_calls ops) (λ _, valueOf)
          (mRFunc (Some t) w1, w1)).1 = Normal data
     ∧ (bind (MockResolve_calls ops) (λ _, await)
          (mRFunc (Some t) w1, w1)).1 = Normal (settle data)
     ∧ (is_promise data = false →
        (bind (MockResolve_calls ops) (λ _, await)
           (mRFunc (Some t) w1, w1)).1 = Normal (Fulfilled data)))
  ∧ (∀ candidate stack,
       seeded_with t candidate → table_call_first t stack →
       accepts stack candidate = false ∧ matches_spec candidate stack = false)
  ∧ (∀ candidate stack,
       table_call_first t candidate → seeded_with t stack →
       accepts stack candidate = false ∧ matches_spec candidate stack = false)
  ∧ (Forall (seeded_with t) (dataArrayArray (DB w)) →
     table_call_first t (currentStack this) →
     (valueOf (this, w)).1 = Normal (JArr []))
  ∧ (Forall (table_call_first t) (dataArrayArray (DB w)) →
     seeded_with t (currentStack this) →
     (valueOf (this, w)).1 = Normal (JArr [])).
Proof.
  intros Ht. split_and!.
  - by apply seed_ops_nonempty.
  - unfold mRFunc. rewrite MockResolve_new_stack. by apply seed_ops_nonempty.
  - by rewrite mQFunc_run, seed_ops_nonempty.
  - by destruct (MockResolve_call_run TABLE [JStr t] (mRFunc None w) w)
      as (logs & -> & _).
  - done.
  - destruct (snoc_of_cons (CraftData TABLE (PStr t) true) (map craft ops))
      as (c & d & Hcd).
    assert (Hseed : seed_ops (Some t) ++ map craft ops = c ++ [d]).
    { by rewrite seed_ops_nonempty. }
    destruct (expect_then_replay (Some t) ops data (World_new cfg) c d Hseed)
      as (Hst & _ & Hv & Ha); [constructor..|].
    simpl in Hst. split_and!; [|done..|].
    + exists (c ++ [seal data d]). split; [done|].
      destruct c as [|x c]; simplify_eq/=.
      * by eexists _, _.
      * by eexists _, _.
    + intros Hp. by rewrite <-(settle_plain data Hp).
  - intros candidate stack (r & rest & -> & _ & Hr) (c & tail & -> & _ & Hc).
    assert (link_ok r c = false) by by eapply link_ok_seed_call.
    split;
      [by apply accepts_head_mismatch|by apply matches_spec_head_mismatch].
  - intros candidate stack (r & rest & -> & _ & Hr) (c & tail & -> & _ & Hc).
    assert (link_ok r c = false) by by eapply link_ok_call_seed.
    split;
      [by apply accepts_head_mismatch|by apply matches_spec_head_mismatch].
  - intros Hst (c & tail & Hstack & _ & Hc).
    eapply findResult_no_head_match; [done|].
    eapply Forall_impl; [exact Hst|].
    intros ch (r & rest & -> & _ & Hr). exists r, rest.
    split; [done|]. by eapply link_ok_seed_call.
  - intros Hst (c & tail & Hstack & _ & Hc).
    eapply findResult_no_head_match; [done|].
    eapply Forall_impl; [exact Hst|].
    intros ch (r & rest & -> & _ & Hr). exists r, rest.
    split; [done|]. by eapply link_ok_call_seed.
Qed.

(** ** The sample sessions *)

Example readme_resolves :
  (valueOf (readme_query, readme_world)).1 = Normal readme_result
  ∧ (await (readme_query, readme_world)).1 = Normal (Fulfilled readme_result)
  ∧ (valueOf (other_query, readme_world)).1 = Normal (JArr []).
Proof. by vm_compute. Qed.

Example inputString_sample :
  inputString "select * from users" = "raw:select * from users".
Proof. reflexivity. Qed.

Example isEqual_ignores_key_order :
  isEqual (JObj [("a", JNum 1); ("b", JNum 2)])
          (JObj [("b", JNum 2); ("a", JNum 1)]) = true.
Proof. reflexivity. Qed.

Example vocabulary_size :
  length vocabulary = 149
  ∧ existsb (String.eqb TABLE) vocabulary = true
  ∧ existsb (String.eqb RAW) vocabulary = true
  ∧ String.eqb TABLE RAW = false.
Proof. by vm_compute. Qed.

(** ** Instances *)

(** C1: after [EXPECT()("t").RESOLVE(1)], neither a second [RESOLVE(2)] nor a
    call of [select()] on the same builder raises: the first overwrites the
    result, the second extends the chain. *)
Lemma sealed_builder_accepts_more :
  dataArrayArray (DB sealed_world)
  = [[seal (JNum 1) (CraftData TABLE (PStr "t") true)]]
  ∧ ¬ raises (RESOLVE (JNum 2) first_builder) sealed_world
  ∧ dataArrayArray (DB (RESOLVE (JNum 2) first_builder sealed_world).2)
    = [[seal (JNum 2) (CraftData TABLE (PStr "t") true)]]
  ∧ ¬ raises (MockQuery_call SELECT [] first_builder) sealed_world
  ∧ dataArrayArray (DB (MockQuery_call SELECT [] first_builder sealed_world).2)
    = [[seal (JNum 1) (CraftData TABLE (PStr "t") true);
        CraftData SELECT (PArr []) true]].
Proof.
  split_and!; try reflexivity.
  - intros [e He]. vm_compute in He. discriminate.
  - intros [e He]. vm_compute in He. discriminate.
Qed.

Lemma RESOLVE_again_and_append_after_witness :
  dataArrayArray (DB seeded_world) !! dataArray first_builder
  = Some ([] ++ [CraftData TABLE (PStr "t") true])
  ∧ ∃ w1,
      RESOLVE (JNum 1) first_builder seeded_world = (Normal tt, w1)
      ∧ dataArrayArray (DB w1) !! dataArray first_builder
        = Some ([] ++ [seal (JNum 1) (CraftData TABLE (PStr "t") true)])
      ∧ (∀ data2,
           RESOLVE data2 first_builder w1
           = (Normal tt,
              with_chains
                (<[dataArray first_builder :=
                     [] ++ [seal data2 (CraftData TABLE (PStr "t") true)]]>
                   (dataArrayArray (DB seeded_world))) seeded_world)
           ∧ ¬ raises (RESOLVE data2 first_builder) w1)
      ∧ (∀ name input,
           MockQuery_call name input first_builder w1
           = (Normal first_builder,
              with_chains
                (<[dataArray first_builder :=
                     [] ++ [seal (JNum 1) (CraftData TABLE (PStr "t") true);
                            CraftData name (PArr input) true]]>
                   (dataArrayArray (DB seeded_world))) seeded_world)
           ∧ ¬ raises (MockQuery_call name input first_builder) w1).
Proof.
  split; [reflexivity|].
  apply (RESOLVE_again_and_append_after seeded_world (JNum 1) first_builder
           [] (CraftData TABLE (PStr "t") true)).
  reflexivity.
Defined.

(** C2: the raw seed and the table seed carry the same name, and the raw
    text ["x"] collides with the table name ["raw:x"] in both roles.  With
    the empty table name there is no seed, and a following wildcard [table()]
    is matched by the raw seed. *)
Lemma raw_seed_collides_with_table_name :
  mRFunc_raw (Normal "x") raw_world = Normal (mRFunc (Some "raw:x") raw_world)
  ∧ (action <$> head (currentStack (mRFunc (Some "raw:x") raw_world)))
    = (action <$> head (currentStack (mRFunc (Some "t") raw_world)))
  ∧ (valueOf (mRFunc (Some "raw:x") raw_world, raw_world)).1 = Normal (JNum 1)
  ∧ (await (mRFunc (Some "raw:x") raw_world, raw_world)).1
    = Normal (Fulfilled (JNum 1))
  ∧ (∃ proxy,
       mRFunc_raw (Normal "x") rawlike_table_world = Normal proxy
       ∧ (valueOf (proxy, rawlike_table_world)).1 = Normal (JNum 2)
       ∧ (await (proxy, rawlike_table_world)).1 = Normal (Fulfilled (JNum 2)))
  ∧ (∃ proxy,
       mRFunc_raw (Normal "x") wildcard_table_world = Normal proxy
       ∧ (valueOf (proxy, wildcard_table_world)).1 = Normal (JNum 5)).
Proof.
  split_and!; try reflexivity.
  - eexists. split_and!; reflexivity.
  - eexists. split_and!; reflexivity.
Qed.

Lemma raw_seed_is_a_table_seed_witness :
  let proxy := mRFunc (Some (inputString "select * from users")) users_world in
  "users" ≠ ""
  ∧ "users" ≠ inputString "select * from users"
  ∧ mRFunc_raw (Normal "select * from users") users_world = Normal proxy
  ∧ Forall (seeded_with "users") (dataArrayArray (DB users_world))
  ∧ seeded_with (inputString "select * from users") (currentStack proxy)
  ∧ (findResult (proxy, users_world)).1 = Normal None
  ∧ (valueOf (proxy, users_world)).1 = Normal (JArr []).
Proof.
  simpl.
  assert (H1 : "users" ≠ "") by discriminate.
  assert (H2 : "users" ≠ inputString "select * from users") by discriminate.
  assert (H3 : Forall (seeded_with "users") (dataArrayArray (DB users_world))).
  { repeat constructor. eexists _, _. split_and!; reflexivity. }
  assert (H4 : seeded_with (inputString "select * from users")
                 (currentStack
                    (mRFunc (Some (inputString "select * from users"))
                       users_world))).
  { eexists _, _. split_and!; reflexivity. }
  destruct (raw_seed_is_a_table_seed
              (mRFunc (Some (inputString "select * from users")) users_world)
              users_world "select * from users" "users" H1 H2)
    as (_ & _ & _ & Hraw & _).
  destruct (Hraw H3 H4) as [Hf Hv].
  split_and!; try assumption. reflexivity.
Defined.

Lemma findResult_first_sealed_match_witness :
  store_wf (dataArrayArray (DB three_selects))
  ∧ dataArrayArray (DB three_selects)
    = [[CraftData SELECT (PArr [JStr "a"]) true]]
      ++ [seal (JNum 1) (CraftData SELECT (PArr []) true)]
      :: [[seal (JNum 2) (CraftData SELECT (PArr [JStr "a"]) true)]]
  ∧ ∃ final R,
      last [seal (JNum 1) (CraftData SELECT (PArr []) true)] = Some final
      ∧ result final = Some R
      ∧ (findResult (select_a_query, three_selects)).1 = Normal (Some final)
      ∧ (valueOf (select_a_query, three_selects)).1 = Normal R.
Proof.
  assert (Hwf : store_wf (dataArrayArray (DB three_selects)))
    by solve_store_wf.
  split; [exact Hwf|]. split; [reflexivity|].
  apply (proj1 (findResult_first_sealed_match select_a_query three_selects Hwf)
           [[CraftData SELECT (PArr [JStr "a"]) true]]
           [seal (JNum 1) (CraftData SELECT (PArr []) true)]
           [[seal (JNum 2) (CraftData SELECT (PArr [JStr "a"]) true)]]).
  - reflexivity.
  - repeat constructor.
  - reflexivity.
Defined.

(** C4: with [select().RESOLVE(1)] registered before
    [select("a").RESOLVE(2)], the invocation [select("a")] has exactly the
    names and parameters of the second, sealed, chain, yet it resolves to the
    result of the first one. *)
Lemma earlier_wildcard_shadows_exact_chain :
  let chain := [seal (JNum 2) (CraftData SELECT (PArr [JStr "a"]) true)] in
  chain ∈ dataArrayArray (DB two_selects)
  ∧ sealed chain = true
  ∧ (result <$> last chain) = Some (Some (JNum 2))
  ∧ same_ops (currentStack select_a_query) chain
  ∧ (valueOf (select_a_query, two_selects)).1 = Normal (JNum 1)
  ∧ (await (select_a_query, two_selects)).1 = Normal (Fulfilled (JNum 1))
  ∧ (valueOf (select_a_query, two_selects)).1 ≠ Normal (JNum 2)
  ∧ dataArrayArray (DB kept_promise_world)
    = [[seal kept_promise (CraftData SELECT (PArr [JStr "a"]) true)]]
  ∧ same_ops (currentStack select_a_query)
      [seal kept_promise (CraftData SELECT (PArr [JStr "a"]) true)]
  ∧ (valueOf (select_a_query, kept_promise_world)).1 = Normal kept_promise
  ∧ (await (select_a_query, kept_promise_world)).1
    = Normal (Fulfilled (JNum 1))
  ∧ (await (select_a_query, kept_promise_world)).1
    ≠ Normal (Fulfilled kept_promise).
Proof.
  simpl. split_and!; try reflexivity.
  - right. left.
  - vm_compute. discriminate.
  - vm_compute. discriminate.
Qed.

Lemma replayed_chain_resolves_to_its_result_witness :
  let chain :=
    [CraftData TABLE (PStr "myTable") true;
     CraftData SELECT (PArr [JArr [JStr "objectName"; JStr "id"]]) true;
     seal readme_result
       (CraftData WHERE (PArr [JStr "field"; JStr "data"]) true)] in
  let final :=
    seal readme_result
      (CraftData WHERE (PArr [JStr "field"; JStr "data"]) true) in
  dataArrayArray (DB readme_world) = [] ++ chain :: []
  ∧ store_wf (dataArrayArray (DB readme_world))
  ∧ last chain = Some final
  ∧ isMore final = false
  ∧ result final = Some readme_result
  ∧ same_ops (currentStack readme_query) chain
  ∧ Forall (λ c, matches_spec c (currentStack readme_query) = false) []
  ∧ (valueOf (readme_query, readme_world)).1 = Normal readme_result
  ∧ (await (readme_query, readme_world)).1 = Normal (Fulfilled readme_result).
Proof.
  simpl.
  assert (Hwf : store_wf (dataArrayArray (DB readme_world)))
    by solve_store_wf.
  split_and!; [reflexivity|exact Hwf|reflexivity..|constructor| |];
    apply (replayed_chain_resolves_to_its_result readme_query readme_world
             [] []
             [CraftData TABLE (PStr "myTable") true;
              CraftData SELECT (PArr [JArr [JStr "objectName"; JStr "id"]])
                true;
              seal readme_result
                (CraftData WHERE (PArr [JStr "field"; JStr "data"]) true)]
             (seal readme_result
                (CraftData WHERE (PArr [JStr "field"; JStr "data"]) true))
             readme_result);
    solve [reflexivity | exact Hwf | constructor].
Defined.


Lemma no_match_resolves_to_empty_array_witness :
  store_wf (dataArrayArray (DB readme_world))
  ∧ Forall (λ c, matches_spec c (currentStack other_query) = false)
      (dataArrayArray (DB readme_world))
  ∧ (valueOf (other_query, readme_world)).1 = Normal (JArr [])
  ∧ (await (other_query, readme_world)).1 = Normal (Fulfilled (JArr []))
  ∧ ¬ raises valueOf (other_query, readme_world)
  ∧ ¬ raises await (other_query, readme_world).
Proof.
  assert (Hwf : store_wf (dataArrayArray (DB readme_world)))
    by solve_store_wf.
  assert (Hno : Forall (λ c, matches_spec c (currentStack other_query) = false)
                  (dataArrayArray (DB readme_world))).
  { repeat constructor. }
  split; [exact Hwf|]. split; [exact Hno|].
  exact (no_match_resolves_to_empty_array other_query readme_world Hwf Hno).
Defined.

(** C7: with a promise as the registered result the two accessors differ:
    [valueOf] returns the promise itself, while an await yields the value
    the promise fulfils with, or has its rejection reason thrown. *)
Lemma stored_promise_is_adopted :
  (valueOf (select_a_query, kept_promise_world)).1 = Normal kept_promise
  ∧ (await (select_a_query, kept_promise_world)).1
    = Normal (Fulfilled (JNum 1))
  ∧ (await (select_a_query, kept_promise_world)).1
    ≠ Normal (Fulfilled kept_promise)
  ∧ (valueOf (select_a_query, broken_promise_world)).1 = Normal broken_promise
  ∧ (await (select_a_query, broken_promise_world)).1
    = Normal (Rejected (JStr "boom"))
  ∧ (accesses [Sync; Awaited] (select_a_query, kept_promise_world)).1
    = Normal [Value kept_promise; Awaits (Fulfilled (JNum 1))].
Proof.
  split_and!; try reflexivity. vm_compute. discriminate.
Qed.

Lemma accessors_agree_witness :
  is_promise readme_result = false
  ∧ (valueOf (readme_query, readme_world)).1 = Normal readme_result
  ∧ (await (readme_query, readme_world)).1 = Normal (Fulfilled readme_result)
  ∧ (accesses [Sync; Awaited; Sync] (readme_query, readme_world)).1
    = Normal [Value readme_result; Awaits (Fulfilled readme_result);
              Value readme_result].
Proof.
  destruct (accessors_agree readme_query readme_world)
    as (v & Hv & _ & Hplain & _ & Hacc).
  assert (Hr : v = readme_result).
  { vm_compute in Hv. injection Hv as <-. reflexivity. }
  subst v. split; [reflexivity|]. split; [exact Hv|].
  split; [exact (Hplain eq_refl)|]. exact (Hacc [Sync; Awaited; Sync]).
Defined.

Lemma resolution_leaves_data_unchanged_witness :
  printing readme_query = false
  ∧ (findResult (readme_query, readme_world)).2 = (readme_query, readme_world)
  ∧ (valueOf (readme_query, readme_world)).2 = (readme_query, readme_world)
  ∧ (await (readme_query, readme_world)).2 = (readme_query, readme_world).
Proof.
  split; [reflexivity|].
  apply (resolution_leaves_data_unchanged readme_query readme_world).
  reflexivity.
Defined.

Lemma RESOLVE_needs_an_operation_witness :
  dataArrayArray (DB seeded_world) !! dataArray first_builder
  = Some ([] ++ [CraftData TABLE (PStr "t") true])
  ∧ RESOLVE (JNum 1) first_builder seeded_world
    = (Normal tt,
       with_chains
         (<[dataArray first_builder :=
              [] ++ [seal (JNum 1) (CraftData TABLE (PStr "t") true)]]>
            (dataArrayArray (DB seeded_world))) seeded_world)
  ∧ ∃ q w1,
      mQFunc None seeded_world = (Normal q, w1)
      ∧ dataArrayArray (DB w1) !! dataArray q = Some []
      ∧ RESOLVE (JNum 1) q w1 = (Throw TypeError, w1).
Proof.
  split; [reflexivity|].
  destruct (RESOLVE_needs_an_operation seeded_world (JNum 1) first_builder
              [] (CraftData TABLE (PStr "t") true))
    as [Hseal Hq].
  destruct (Hseal eq_refl) as [Hr _].
  split; [exact Hr|exact Hq].
Defined.

(** C10: with the empty string as table name no seed is made, so the
    expectation [EXPECT()("").table("").RESOLVE(1)] is matched by an
    invocation whose first operation is [table("")] on an unseeded proxy. *)
Lemma empty_table_name_matches_table_call :
  seed_ops (Some "") = []
  ∧ dataArrayArray (DB empty_name_world)
    = [[seal (JNum 1) (CraftData TABLE (PArr [JStr ""]) true)]]
  ∧ table_call_first "" (currentStack empty_name_query)
  ∧ (valueOf (empty_name_query, empty_name_world)).1 = Normal (JNum 1)
  ∧ (await (empty_name_query, empty_name_world)).1
    = Normal (Fulfilled (JNum 1)).
Proof.
  split_and!; try reflexivity.
  eexists _, _. split_and!; reflexivity.
Qed.

Lemma table_seed_is_a_bare_string_witness :
  "myTable" ≠ ""
  ∧ seed_ops (Some "myTable") = [CraftData TABLE (PStr "myTable") true]
  ∧ craft (TABLE, [JStr "myTable"])
    = CraftData TABLE (PArr [JStr "myTable"]) true
  ∧ (bind (MockResolve_calls readme_ops) (λ _, valueOf)
       (mRFunc (Some "myTable") readme_world, readme_world)).1
    = Normal readme_result
  ∧ (∀ candidate stack,
       seeded_with "myTable" candidate → table_call_first "myTable" stack →
       accepts stack candidate = false ∧ matches_spec candidate stack = false)
  ∧ (∀ candidate stack,
       table_call_first "myTable" candidate → seeded_with "myTable" stack →
       accepts stack candidate = false ∧ matches_spec candidate stack = false).
Proof.
  assert (Ht : "myTable" ≠ "") by discriminate.
  destruct (table_seed_is_a_bare_string readme_query readme_world None
              "myTable" readme_ops readme_result Ht)
    as ((Hs & _ & _ & _ & Hc) & (_ & Hv & _) & Hfwd & Hbwd & _).
  split_and!; assumption.
Defined.

(** * Further properties of the recorder, the proxy and the matcher *)

(** ** The recorder *)

(** Fluent calls on a live builder complete normally, return the builder,
    append one open operation per call, in call order, to the builder's own
    chain, and change nothing else: no other chain, no chain count, neither
    the configuration nor the console. *)
Theorem MockQuery_calls_append (ops : list Call) (this : MockQuery)
    (w : World) (c : list Data) :
  dataArrayArray (DB w) !! dataArray this = Some c →
  ∃ w',
    MockQuery_calls ops this w = (Normal this, w')
    ∧ dataArrayArray (DB w') !! dataArray this = Some (c ++ map craft ops)
    ∧ length (dataArrayArray (DB w')) = length (dataArrayArray (DB w))
    ∧ (∀ j, j ≠ dataArray this →
         dataArrayArray (DB w') !! j = dataArrayArray (DB w) !! j)
    ∧ config (DB w') = config (DB w)
    ∧ console w' = console w.
Proof.
  intros Hc. eexists. split; [by apply MockQuery_calls_run|]. simpl.
  split_and!; [|by rewrite length_insert| |done..].
  - apply list_lookup_insert_eq. by eapply lookup_lt_Some.
  - intros j Hj. by apply list_lookup_insert_ne.
Qed.

Lemma MockQuery_calls_append_witness :
  dataArrayArray (DB seeded_world) !! dataArray first_builder
  = Some [CraftData TABLE (PStr "t") true]
  ∧ ∃ w',
      MockQuery_calls readme_ops first_builder seeded_world
      = (Normal first_builder, w')
      ∧ dataArrayArray (DB w') !! dataArray first_builder
        = Some ([CraftData TABLE (PStr "t") true] ++ map craft readme_ops)
      ∧ length (dataArrayArray (DB w'))
        = length (dataArrayArray (DB seeded_world))
      ∧ (∀ j, j ≠ dataArray first_builder →
           dataArrayArray (DB w') !! j = dataArrayArray (DB seeded_world) !! j)
      ∧ config (DB w') = config (DB seeded_world)
      ∧ console w' = console seeded_world.
Proof.
  split; [reflexivity|].
  apply (MockQuery_calls_append readme_ops first_builder seeded_world
           [CraftData TABLE (PStr "t") true]).
  reflexivity.
Defined.

(** A factory call appends exactly one chain, behind all the others, and
    hands out a reference to it that no live builder holds; the chains of the
    live builders stay as they were.  The chain starts with the seed when the
    table name is non-empty, and with the raw seed, ["raw:"] and the text of
    the input, for the raw variant.  When the conversion of the raw input
    throws, the raw variant throws too, and the empty array it pushed first
    stays in the store. *)
Theorem mQFunc_makes_a_fresh_chain (tableName : option string)
    (text : string) (e : JsError) (w : World) :
  (∃ q w',
     mQFunc tableName w = (Normal q, w')
     ∧ dataArrayArray (DB w') = dataArrayArray (DB w) ++ [seed_ops tableName]
     ∧ dataArrayArray (DB w') !! dataArray q = Some (seed_ops tableName)
     ∧ (∀ q0 : MockQuery,
          is_Some (dataArrayArray (DB w) !! dataArray q0) →
          dataArray q0 ≠ dataArray q
          ∧ dataArrayArray (DB w') !! dataArray q0
            = dataArrayArray (DB w) !! dataArray q0))
  ∧ (∃ q w',
       mQFunc_raw (Normal text) w = (Normal q, w')
       ∧ dataArrayArray (DB w')
         = dataArrayArray (DB w)
           ++ [[CraftData TABLE (PStr (inputString text)) true]]
       ∧ dataArrayArray (DB w') !! dataArray q
         = Some [CraftData TABLE (PStr (inputString text)) true]
       ∧ (∀ q0 : MockQuery,
            is_Some (dataArrayArray (DB w) !! dataArray q0) →
            dataArray q0 ≠ dataArray q
            ∧ dataArrayArray (DB w') !! dataArray q0
              = dataArrayArray (DB w) !! dataArray q0))
  ∧ (∃ w',
       mQFunc_raw (Throw e) w = (Throw e, w')
       ∧ dataArrayArray (DB w') = dataArrayArray (DB w) ++ [[]]
       ∧ (∀ q0 : MockQuery,
            is_Some (dataArrayArray (DB w) !! dataArray q0) →
            dataArrayArray (DB w') !! dataArray q0
            = dataArrayArray (DB w) !! dataArray q0)).
Proof.
  assert (Hold : ∀ (q0 : MockQuery) extra,
            is_Some (dataArrayArray (DB w) !! dataArray q0) →
            dataArray q0 ≠ length (dataArrayArray (DB w))
            ∧ (dataArrayArray (DB w) ++ [extra]) !! dataArray q0
              = dataArrayArray (DB w) !! dataArray q0).
  { intros q0 extra Hq%lookup_lt_is_Some. split; [lia|].
    by apply lookup_app_l. }
  split_and!.
  - rewrite mQFunc_run. eexists _, _. split; [done|]. simpl.
    split_and!; [done|apply lookup_snoc|intros q0 Hq; by apply Hold].
  - rewrite mQFunc_raw_run, mQFunc_run. eexists _, _. split; [done|]. simpl.
    split_and!; [done|apply lookup_snoc|intros q0 Hq; by apply Hold].
  - rewrite mQFunc_raw_throw. eexists. split; [done|]. simpl.
    split; [done|]. intros q0 Hq. by apply Hold.
Qed.

Lemma mQFunc_makes_a_fresh_chain_witness :
  is_Some (dataArrayArray (DB seeded_world) !! dataArray first_builder)
  ∧ (∃ q w',
       mQFunc (Some "u") seeded_world = (Normal q, w')
       ∧ dataArray first_builder ≠ dataArray q
       ∧ dataArrayArray (DB w') !! dataArray first_builder
         = dataArrayArray (DB seeded_world) !! dataArray first_builder)
  ∧ (∃ q w',
       mQFunc_raw (Normal "select 1") seeded_world = (Normal q, w')
       ∧ dataArray first_builder ≠ dataArray q
       ∧ dataArrayArray (DB w') !! dataArray first_builder
         = dataArrayArray (DB seeded_world) !! dataArray first_builder)
  ∧ (∃ w',
       mQFunc_raw (Throw TypeError) seeded_world = (Throw TypeError, w')
       ∧ dataArrayArray (DB w') !! dataArray first_builder
         = dataArrayArray (DB seeded_world) !! dataArray first_builder).
Proof.
  assert (Hlive : is_Some (dataArrayArray (DB seeded_world)
                             !! dataArray first_builder)).
  { eexists. reflexivity. }
  split; [exact Hlive|].
  destruct (mQFunc_makes_a_fresh_chain (Some "u") "select 1" TypeError
              seeded_world)
    as ((q & w' & Hrun & _ & _ & Hold) & (q' & w'' & Hrun' & _ & _ & Hold')
        & (w3 & Hrun3 & _ & Hold3)).
  split_and!.
  - exists q, w'. split; [exact Hrun|]. exact (Hold first_builder Hlive).
  - exists q', w''. split; [exact Hrun'|]. exact (Hold' first_builder Hlive).
  - exists w3. split; [exact Hrun3|]. exact (Hold3 first_builder Hlive).
Defined.

(** What one builder does never changes the chain of another: a fluent call
    or a [RESOLVE] through one reference leaves the array behind every other
    reference alone, whether or not the call succeeds. *)
Theorem builders_do_not_interfere (this other : MockQuery) (w : World)
    (name : string) (input : list JsVal) (data : JsVal) :
  dataArray other ≠ dataArray this →
  dataArrayArray (DB (MockQuery_call name input this w).2) !! dataArray other
  = dataArrayArray (DB w) !! dataArray other
  ∧ dataArrayArray (DB (RESOLVE data this w).2) !! dataArray other
    = dataArrayArray (DB w) !! dataArray other.
Proof.
  intros Hne. split.
  - destruct (dataArrayArray (DB w) !! dataArray this) as [c|] eqn:Hc.
    + rewrite (MockQuery_call_run _ _ _ _ c Hc). simpl.
      by apply list_lookup_insert_ne.
    + unfold MockQuery_call, dataArray_push. unfold_monad. by rewrite Hc.
  - destruct (dataArrayArray (DB w) !! dataArray this) as [c|] eqn:Hc.
    + destruct c as [|d c _] using rev_ind.
      * by rewrite RESOLVE_empty.
      * rewrite (RESOLVE_run _ _ _ c d Hc). simpl.
        by apply list_lookup_insert_ne.
    + unfold RESOLVE. unfold_monad. by rewrite Hc.
Qed.

Lemma builders_do_not_interfere_witness :
  dataArray {| dataArray := 1 |} ≠ dataArray first_builder
  ∧ dataArrayArray (DB (MockQuery_call SELECT [] first_builder two_selects).2)
      !! 1
    = dataArrayArray (DB two_selects) !! 1
  ∧ dataArrayArray (DB (RESOLVE JNull first_builder two_selects).2) !! 1
    = dataArrayArray (DB two_selects) !! 1.
Proof.
  assert (Hne : dataArray {| dataArray := 1 |} ≠ dataArray first_builder)
    by discriminate.
  split; [exact Hne|].
  exact (builders_do_not_interfere first_builder {| dataArray := 1 |}
           two_selects SELECT [] JNull Hne).
Defined.

(** The recorder never prints and never touches the configuration, with or
    without [printData]. *)
Theorem recorder_is_silent (w : World) (tableName : option string)
    (input : Completion string) (name : string) (args : list JsVal) (data : JsVal)
    (this : MockQuery) (ops : list Call) :
  (console (mQFunc tableName w).2 = console w
   ∧ config (DB (mQFunc tableName w).2) = config (DB w))
  ∧ (console (mQFunc_raw input w).2 = console w
     ∧ config (DB (mQFunc_raw input w).2) = config (DB w))
  ∧ (console (MockQuery_call name args this w).2 = console w
     ∧ config (DB (MockQuery_call name args this w).2) = config (DB w))
  ∧ (console (RESOLVE data this w).2 = console w
     ∧ config (DB (RESOLVE data this w).2) = config (DB w))
  ∧ (console (expect tableName ops data w).2 = console w
     ∧ config (DB (expect tableName ops data w).2) = config (DB w)).
Proof.
  assert (Hcall : ∀ q w0,
            console (MockQuery_call name args q w0).2 = console w0
            ∧ config (DB (MockQuery_call name args q w0).2) = config (DB w0)).
  { intros q w0.
    destruct (dataArrayArray (DB w0) !! dataArray q) as [c|] eqn:Hc.
    - by rewrite (MockQuery_call_run _ _ _ _ c Hc).
    - unfold MockQuery_call, dataArray_push. unfold_monad. by rewrite Hc. }
  assert (Hres : ∀ q w0,
            console (RESOLVE data q w0).2 = console w0
            ∧ config (DB (RESOLVE data q w0).2) = config (DB w0)).
  { intros q w0.
    destruct (dataArrayArray (DB w0) !! dataArray q) as [c|] eqn:Hc.
    - destruct c as [|d c _] using rev_ind.
      + by rewrite RESOLVE_empty.
      + by rewrite (RESOLVE_run _ _ _ c d Hc).
    - unfold RESOLVE. unfold_monad. by rewrite Hc. }
  split_and!; try (by rewrite mQFunc_run);
    try (by destruct input as [text|e];
           [rewrite mQFunc_raw_run, mQFunc_run|rewrite mQFunc_raw_throw]);
    try apply Hcall; try apply Hres.
  - unfold expect, bind. rewrite mQFunc_run.
    erewrite MockQuery_calls_run by apply lookup_snoc.
    etrans; [apply Hres|done].
  - unfold expect, bind. rewrite mQFunc_run.
    erewrite MockQuery_calls_run by apply lookup_snoc.
    etrans; [apply Hres|done].
Qed.

(** ** The proxy *)

Lemma MockResolve_calls_exact (ops : list Call) (this : MockResolve)
    (w : World) :
  MockResolve_calls ops (this, w)
  = (Normal tt,
     ({| currentStack := currentStack this ++ map craft ops;
         mr_config := mr_config this |},
      add_logs (if printing this then map call_line ops else []) w)).
Proof.
  revert this w. induction ops as [|op ops IH]; intros this w; simpl.
  - unfold ret. rewrite app_nil_r.
    destruct (printing this); rewrite add_logs_nil; by destruct this.
  - unfold bind at 1. unfold MockResolve_call, currentStack_push.
    unfold_monad. unfold call_line.
    destruct (printing this) eqn:Hp; simpl; rewrite IH; simpl;
      unfold printing in *; simpl; rewrite Hp, <-app_assoc; simpl.
    + by rewrite add_logs_app.
    + done.
Qed.

(** Fluent calls on the proxy never throw and never touch the store: they
    append one open operation per call, in call order, to the proxy's own
    chain, and print one line per call exactly when [printData] is set. *)
Theorem MockResolve_calls_effect (ops : list Call) (this : MockResolve)
    (w : World) :
  ∃ this' w',
    MockResolve_calls ops (this, w) = (Normal tt, (this', w'))
    ∧ currentStack this' = currentStack this ++ map craft ops
    ∧ mr_config this' = mr_config this
    ∧ DB w' = DB w
    ∧ console w'
      = console w ++ (if printing this then map call_line ops else []).
Proof.
  eexists _, _. split; [apply MockResolve_calls_exact|]. done.
Qed.

(** What the accessors return depends on the invocation chain and on the
    store only: two proxies with the same chain read the same value from
    worlds with the same store, whatever their [printData] settings and
    whatever is on the console. *)
Theorem resolution_ignores_printData (this this' : MockResolve)
    (w w' : World) :
  currentStack this = currentStack this' →
  dataArrayArray (DB w) = dataArrayArray (DB w') →
  (findResult (this, w)).1 = (findResult (this', w')).1
  ∧ (valueOf (this, w)).1 = (valueOf (this', w')).1
  ∧ (await (this, w)).1 = (await (this', w')).1.
Proof.
  intros Hs Hd.
  destruct (findResult_run this w) as (l1 & -> & _).
  destruct (findResult_run this' w') as (l2 & -> & _).
  destruct (valueOf_run this w) as (l3 & -> & _).
  destruct (valueOf_run this' w') as (l4 & -> & _).
  destruct (await_run this w) as (l5 & -> & _).
  destruct (await_run this' w') as (l6 & -> & _).
  simpl. by rewrite Hs, Hd.
Qed.

Lemma resolution_ignores_printData_witness :
  let loud :=
    {| currentStack := currentStack readme_query;
       mr_config := Some {| printData := true |} |} in
  currentStack readme_query = currentStack loud
  ∧ dataArrayArray (DB readme_world)
    = dataArrayArray (DB (add_logs [[LStr "noise"]] readme_world))
  ∧ (findResult (readme_query, readme_world)).1
    = (findResult (loud, add_logs [[LStr "noise"]] readme_world)).1
  ∧ (valueOf (readme_query, readme_world)).1
    = (valueOf (loud, add_logs [[LStr "noise"]] readme_world)).1
  ∧ (await (readme_query, readme_world)).1
    = (await (loud, add_logs [[LStr "noise"]] readme_world)).1.
Proof.
  simpl. split; [reflexivity|]. split; [reflexivity|].
  apply (resolution_ignores_printData readme_query
           {| currentStack := currentStack readme_query;
              mr_config := Some {| printData := true |} |}
           readme_world (add_logs [[LStr "noise"]] readme_world));
    reflexivity.
Defined.

(** ** What [findResult] prints *)

Lemma links_loop_logs n : ∀ i resolution this w,
  ∃ logs,
    (links_loop resolution i n (this, w)).2 = (this, add_logs logs w)
    ∧ (length logs ≤ n)%nat
    ∧ Forall comparison_line logs.
Proof.
  induction n as [|n IH]; intros i resolution this w.
  - exists []. by rewrite add_logs_nil.
  - assert (Hline : Forall comparison_line (link_log resolution this i)
                    ∧ (length (link_log resolution this i) ≤ 1)%nat).
    { unfold link_log. destruct (printing this); simpl;
        [|split; [constructor|lia]].
      split; [|lia]. repeat constructor. by eexists _, _. }
    destruct Hline as [Hline Hone].
    assert (Hstop : ∀ b : Completion bool,
              ∃ logs,
                (b, (this, add_logs (link_log resolution this i) w)).2
                = (this, add_logs logs w)
                ∧ (length logs ≤ S n)%nat ∧ Forall comparison_line logs).
    { intros b. exists (link_log resolution this i). split_and!; [done|lia|done]. }
    assert (Hnext : ∃ logs,
              (links_loop resolution (S i) n
                 (this, add_logs (link_log resolution this i) w)).2
              = (this, add_logs logs w)
              ∧ (length logs ≤ S n)%nat ∧ Forall comparison_line logs).
    { destruct (IH (S i) resolution this
                  (add_logs (link_log resolution this i) w))
        as (logs & -> & Hlen & Hall).
      exists (link_log resolution this i ++ logs). rewrite add_logs_app.
      split_and!; [done| |by apply Forall_app].
      rewrite length_app. lia. }
    assert (Hcmp : ∀ a b,
              comparison_line [LStr "find result"; LData a; LStr "VS"; LData b])
      by (intros a b; by eexists _, _).
    destruct (resolution !! i) as [r|] eqn:Hr;
      destruct (currentStack this !! i) as [c|] eqn:Hc.
    + rewrite (links_loop_step _ _ _ _ _ r c Hr Hc).
      destruct (link_ok r c); [exact Hnext|apply Hstop].
    + simpl. unfold_monad. rewrite Hr, Hc.
      destruct (printing this); simpl.
      * eexists [_]. split_and!; [reflexivity|simpl; lia|].
        repeat constructor. apply Hcmp.
      * exists []. rewrite add_logs_nil.
        split_and!; [done|simpl; lia|constructor].
    + simpl. unfold_monad. rewrite Hr, Hc.
      destruct (printing this); simpl.
      * eexists [_]. split_and!; [reflexivity|simpl; lia|].
        repeat constructor. apply Hcmp.
      * exists []. rewrite add_logs_nil.
        split_and!; [done|simpl; lia|constructor].
    + simpl. unfold_monad. rewrite Hr, Hc.
      destruct (printing this); simpl.
      * eexists [_]. split_and!; [reflexivity|simpl; lia|].
        repeat constructor. apply Hcmp.
      * exists []. rewrite add_logs_nil.
        split_and!; [done|simpl; lia|constructor].
Qed.

Lemma chains_loop_logs n : ∀ index this w,
  index + n = length (dataArrayArray (DB w)) →
  ∃ logs,
    (chains_loop index n (this, w)).2 = (this, add_logs logs w)
    ∧ (length logs ≤ n * length (currentStack this))%nat
    ∧ Forall comparison_line logs.
Proof.
  induction n as [|n IH]; intros index this w Hn.
  - exists []. by rewrite add_logs_nil.
  - destruct (lookup_lt_is_Some_2 (dataArrayArray (DB w)) index)
      as [resolution Hres]; [lia|].
    assert (Hnext : ∀ logs0,
              (length logs0 ≤ length (currentStack this))%nat →
              Forall comparison_line logs0 →
              ∃ logs,
                (chains_loop (S index) n (this, add_logs logs0 w)).2
                = (this, add_logs logs w)
                ∧ (length logs ≤ S n * length (currentStack this))%nat
                ∧ Forall comparison_line logs).
    { intros logs0 Hlen0 Hall0.
      destruct (IH (S index) this (add_logs logs0 w)) as (logs & -> & Hlen & Hall);
        [simpl; lia|].
      exists (logs0 ++ logs). rewrite add_logs_app.
      split_and!; [done| |by apply Forall_app].
      rewrite length_app. simpl. lia. }
    simpl. unfold_monad. rewrite Hres.
    destruct (Nat.eqb (length resolution) (length (currentStack this)))
      eqn:Hlen; simpl.
    + apply Nat.eqb_eq in Hlen.
      destruct (links_loop_run (length resolution) 0 resolution this w)
        as (logs0 & Hrun & _); [done|done|].
      destruct (links_loop_logs (length resolution) 0 resolution this w)
        as (logs1 & Hw & Hlen1 & Hall1).
      rewrite Hrun in Hw |- *. simpl in Hw. rewrite Hw.
      rewrite Hlen in Hlen1.
      destruct (links_ok _ _); simpl; [|by apply Hnext].
      destruct (resolution !! (length resolution - 1)) as [final|];
        [|by apply Hnext].
      destruct (Nat.ltb 0 (length resolution) && negb (isMore final));
        [|by apply Hnext].
      exists logs1. split_and!; [done|simpl; lia|done].
    + specialize (Hnext [] ltac:(simpl; lia) ltac:(constructor)).
      by rewrite add_logs_nil in Hnext.
Qed.

(** One run of the matcher compares at most (stored chains) times (length of
    the invocation) pairs of operations: with [printData] set it prints one
    "find result" line per compared pair and nothing else, so the console
    grows by at most that many lines. *)
Theorem findResult_compares_at_most (this : MockResolve) (w : World) :
  ∃ logs,
    (findResult (this, w)).2 = (this, add_logs logs w)
    ∧ (length logs
       ≤ length (dataArrayArray (DB w)) * length (currentStack this))%nat
    ∧ Forall comparison_line logs.
Proof.
  unfold findResult. unfold_monad.
  by apply (chains_loop_logs (length (dataArrayArray (DB w))) 0 this w).
Qed.

(** ** What the matcher never returns *)

Lemma accepts_open_chain stack c d :
  isMore d = true → accepts stack (c ++ [d]) = false.
Proof.
  intros Hd. unfold accepts. rewrite last_snoc, Hd. apply andb_false_r.
Qed.

Lemma outcome_none store stack :
  Forall (λ c, accepts stack c = false) store → outcome store stack = JArr [].
Proof. intros Hno. unfold outcome, scan. by rewrite find_none. Qed.

(** An expectation that was never sealed, or was extended again after
    [RESOLVE], is never returned: when the last operation of every stored
    chain still has [isMore] true, every invocation resolves to the empty
    array, whatever results earlier operations of those chains carry. *)
Theorem unresolved_chains_never_match (this : MockResolve) (w : World) :
  Forall (λ c, ∀ final, last c = Some final → isMore final = true)
    (dataArrayArray (DB w)) →
  (findResult (this, w)).1 = Normal None
  ∧ (valueOf (this, w)).1 = Normal (JArr [])
  ∧ (await (this, w)).1 = Normal (Fulfilled (JArr [])).
Proof.
  intros Hopen.
  assert (Hno : Forall (λ c, accepts (currentStack this) c = false)
                  (dataArrayArray (DB w))).
  { eapply Forall_impl; [exact Hopen|]. intros c Hc.
    destruct c as [|d c _] using rev_ind.
    - unfold accepts. simpl. apply andb_false_r.
    - apply accepts_open_chain, Hc, last_snoc. }
  destruct (findResult_run this w) as (l1 & -> & _).
  destruct (valueOf_run this w) as (l2 & -> & _).
  destruct (await_run this w) as (l3 & -> & _).
  rewrite (outcome_none _ _ Hno). unfold scan. by rewrite find_none.
Qed.

Lemma unresolved_chains_never_match_witness :
  Forall (λ c, ∀ final, last c = Some final → isMore final = true)
    (dataArrayArray (DB seeded_world))
  ∧ (findResult (mRFunc (Some "t") seeded_world, seeded_world)).1
    = Normal None
  ∧ (valueOf (mRFunc (Some "t") seeded_world, seeded_world)).1
    = Normal (JArr [])
  ∧ (await (mRFunc (Some "t") seeded_world, seeded_world)).1
    = Normal (Fulfilled (JArr [])).
Proof.
  assert (Hopen : Forall (λ c, ∀ final, last c = Some final →
                               isMore final = true)
                    (dataArrayArray (DB seeded_world))).
  { repeat constructor. intros final [= <-]. reflexivity. }
  split; [exact Hopen|].
  exact (unresolved_chains_never_match (mRFunc (Some "t") seeded_world)
           seeded_world Hopen).
Defined.

(** A fluent call after [RESOLVE] reopens the chain: the sealed operation
    keeps its result, but the chain now ends in an open operation and no
    invocation at all is matched by it any more. *)
Theorem append_after_RESOLVE_unregisters (w : World) (this : MockQuery)
    (c : list Data) (d : Data) (data : JsVal) (name : string)
    (input : list JsVal) :
  dataArrayArray (DB w) !! dataArray this = Some (c ++ [d]) →
  let w2 := (MockQuery_call name input this (RESOLVE data this w).2).2 in
  dataArrayArray (DB w2) !! dataArray this
  = Some (c ++ [seal data d; CraftData name (PArr input) true])
  ∧ (∀ stack,
       accepts stack (c ++ [seal data d; CraftData name (PArr input) true])
       = false).
Proof.
  intros Hc. simpl. split.
  - rewrite (RESOLVE_run _ _ _ c d Hc). simpl.
    erewrite MockQuery_call_run; last first.
    { simpl. apply list_lookup_insert_eq. by eapply lookup_lt_Some. }
    simpl. rewrite list_insert_insert_eq, <-app_assoc.
    apply list_lookup_insert_eq. by eapply lookup_lt_Some.
  - intros stack.
    change (c ++ [seal data d; CraftData name (PArr input) true])
      with (c ++ [seal data d] ++ [CraftData name (PArr input) true]).
    rewrite app_assoc. by apply accepts_open_chain.
Qed.

Lemma append_after_RESOLVE_unregisters_witness :
  dataArrayArray (DB seeded_world) !! dataArray first_builder
  = Some ([] ++ [CraftData TABLE (PStr "t") true])
  ∧ (valueOf (mRFunc (Some "t") sealed_world, sealed_world)).1
    = Normal (JNum 1)
  ∧ (∀ stack,
       accepts stack
         ([] ++ [seal (JNum 1) (CraftData TABLE (PStr "t") true);
                 CraftData SELECT (PArr []) true]) = false).
Proof.
  split; [reflexivity|]. split; [reflexivity|].
  apply (append_after_RESOLVE_unregisters seeded_world first_builder []
           (CraftData TABLE (PStr "t") true) (JNum 1) SELECT []).
  reflexivity.
Defined.

(** A proxy on which nothing was called resolves to the empty array against
    every store: only an empty chain has its length, and an empty chain is
    never returned. *)
Theorem empty_invocation_resolves_to_empty_array (this : MockResolve)
    (w : World) :
  currentStack this = [] →
  (findResult (this, w)).1 = Normal None
  ∧ (valueOf (this, w)).1 = Normal (JArr [])
  ∧ (await (this, w)).1 = Normal (Fulfilled (JArr [])).
Proof.
  intros Hs.
  assert (Hno : Forall (λ c, accepts (currentStack this) c = false)
                  (dataArrayArray (DB w))).
  { apply Forall_forall. intros c _. rewrite Hs. unfold accepts.
    by destruct c as [|d c]. }
  destruct (findResult_run this w) as (l1 & -> & _).
  destruct (valueOf_run this w) as (l2 & -> & _).
  destruct (await_run this w) as (l3 & -> & _).
  rewrite (outcome_none _ _ Hno). unfold scan. by rewrite find_none.
Qed.

Lemma empty_invocation_resolves_to_empty_array_witness :
  currentStack (mRFunc None three_selects) = []
  ∧ (findResult (mRFunc None three_selects, three_selects)).1 = Normal None
  ∧ (valueOf (mRFunc None three_selects, three_selects)).1 = Normal (JArr [])
  ∧ (await (mRFunc None three_selects, three_selects)).1
    = Normal (Fulfilled (JArr [])).
Proof.
  split; [reflexivity|].
  apply (empty_invocation_resolves_to_empty_array
           (mRFunc None three_selects) three_selects).
  reflexivity.
Defined.

Lemma links_ok_names resolution : ∀ stack,
  length resolution = length stack →
  links_ok resolution stack = true →
  map action resolution = map action stack.
Proof.
  induction resolution as [|r resolution IH]; intros [|c stack] Hlen Hok;
    simplify_eq/=; [done|].
  rewrite links_ok_cons in Hok.
  apply andb_true_iff in Hok as [Hrc Hrest].
  apply link_ok_iff in Hrc as [-> _]. f_equal. by apply IH.
Qed.

(** Whatever the store holds, the matcher only ever returns the last
    operation of a stored chain that has [isMore] false and whose names are,
    position by position, the names of the invocation. *)
Theorem findResult_returns_a_stored_final (this : MockResolve) (w : World)
    (d : Data) :
  (findResult (this, w)).1 = Normal (Some d) →
  ∃ chain,
    chain ∈ dataArrayArray (DB w)
    ∧ last chain = Some d
    ∧ isMore d = false
    ∧ map action chain = map action (currentStack this)
    ∧ (valueOf (this, w)).1 = Normal (get_result d).
Proof.
  destruct (findResult_run this w) as (l1 & -> & _).
  destruct (valueOf_run this w) as (l2 & -> & _).
  simpl. unfold outcome, scan. intros Hd.
  destruct (find (accepts (currentStack this)) (dataArrayArray (DB w)))
    as [chain|] eqn:Hfind; [|by simplify_eq].
  apply find_some in Hfind as [Hin Hacc].
  assert (Hl : last chain = Some d) by by simplify_eq.
  exists chain. rewrite Hl. split_and!; [by apply list_elem_of_In|done| | |done].
  - apply accepts_iff in Hacc as (_ & _ & final & Hf & Hm). by simplify_eq.
  - unfold accepts in Hacc.
    apply andb_true_iff in Hacc as [[Hlen%Nat.eqb_eq Hok]%andb_true_iff _].
    by apply links_ok_names.
Qed.

Lemma findResult_returns_a_stored_final_witness :
  let d := seal (JNum 1) (CraftData SELECT (PArr []) true) in
  (findResult (select_a_query, three_selects)).1 = Normal (Some d)
  ∧ ∃ chain,
      chain ∈ dataArrayArray (DB three_selects)
      ∧ last chain = Some d
      ∧ isMore d = false
      ∧ map action chain = map action (currentStack select_a_query)
      ∧ (valueOf (select_a_query, three_selects)).1 = Normal (get_result d).
Proof.
  simpl. split; [reflexivity|].
  apply (findResult_returns_a_stored_final select_a_query three_selects
           (seal (JNum 1) (CraftData SELECT (PArr []) true))).
  reflexivity.
Defined.

Lemma find_app_l {A} (f : A → bool) l l' x :
  find f l = Some x → find f (l ++ l') = Some x.
Proof.
  induction l as [|y l IH]; simpl; [done|]. by destruct (f y).
Qed.

(** Every complete expectation session leaves exactly one more chain in the
    store, behind the others, whether its [RESOLVE] succeeds or throws. *)
Lemma expect_adds_one_chain tableName ops data w :
  ∃ chain,
    dataArrayArray (DB (expect tableName ops data w).2)
    = dataArrayArray (DB w) ++ [chain]
    ∧ length chain = length (seed_ops tableName) + length ops.
Proof.
  destruct (seed_ops tableName ++ map craft ops) as [|x l] eqn:Hl.
  - apply app_eq_nil in Hl as [Hseed Hops].
    apply map_eq_nil in Hops as ->.
    assert (Hf : truthy tableName = false).
    { unfold seed_ops in Hseed. destruct tableName as [name|]; [|done].
      by destruct (truthy (Some name)). }
    rewrite (expect_empty _ _ _ Hf), Hseed. by exists [].
  - destruct (snoc_of_cons x l) as (c & d & Hcd). rewrite Hcd in Hl.
    rewrite (expect_run _ _ _ _ c d Hl). exists (c ++ [seal data d]).
    split; [done|].
    assert (Hlen : length (seed_ops tableName ++ map craft ops)
                   = length (c ++ [d])) by by rewrite Hl.
    rewrite !length_app, length_map in Hlen. rewrite length_app. simpl in *.
    lia.
Qed.

(** Registering further expectations never changes what an invocation that
    already had a match resolves to: the earlier chain keeps winning. *)
Theorem later_expectations_never_override (this : MockResolve) (w : World)
    (d : Data) (tableName : option string) (ops : list Call) (data : JsVal) :
  (findResult (this, w)).1 = Normal (Some d) →
  let w' := (expect tableName ops data w).2 in
  (findResult (this, w')).1 = Normal (Some d)
  ∧ (valueOf (this, w')).1 = (valueOf (this, w)).1
  ∧ (await (this, w')).1 = (await (this, w)).1.
Proof.
  simpl.
  destruct (expect_adds_one_chain tableName ops data w) as (chain & Hst & _).
  destruct (findResult_run this w) as (l1 & -> & _).
  destruct (valueOf_run this w) as (l2 & -> & _).
  destruct (await_run this w) as (l3 & -> & _).
  destruct (findResult_run this (expect tableName ops data w).2)
    as (l4 & -> & _).
  destruct (valueOf_run this (expect tableName ops data w).2)
    as (l5 & -> & _).
  destruct (await_run this (expect tableName ops data w).2)
    as (l6 & -> & _).
  simpl. rewrite Hst. unfold outcome, scan. intros Hd.
  destruct (find (accepts (currentStack this)) (dataArrayArray (DB w)))
    as [c|] eqn:Hfind; [|by simplify_eq].
  by rewrite (find_app_l _ _ _ c Hfind).
Qed.

Lemma later_expectations_never_override_witness :
  let d := seal (JNum 1) (CraftData SELECT (PArr []) true) in
  let w' := (expect None [(SELECT, [JStr "a"])] (JNum 7) two_selects).2 in
  (findResult (select_a_query, two_selects)).1 = Normal (Some d)
  ∧ (findResult (select_a_query, w')).1 = Normal (Some d)
  ∧ (valueOf (select_a_query, w')).1 = (valueOf (select_a_query, two_selects)).1
  ∧ (await (select_a_query, w')).1 = (await (select_a_query, two_selects)).1.
Proof.
  simpl. split; [reflexivity|].
  apply (later_expectations_never_override select_a_query two_selects
           (seal (JNum 1) (CraftData SELECT (PArr []) true))
           None [(SELECT, [JStr "a"])] (JNum 7)).
  reflexivity.
Defined.

(** ** Whole sessions on a new [MockKnex] *)

Lemma links_ok_app a : ∀ a' b b',
  length a = length a' →
  links_ok (a ++ b) (a' ++ b') = links_ok a a' && links_ok b b'.
Proof.
  induction a as [|x a IH]; intros [|x' a'] b b' Hlen; simplify_eq/=; [done|].
  rewrite !links_ok_cons, (IH a' b b') by done. by rewrite andb_assoc.
Qed.

Lemma link_ok_refl d : link_ok d d = true.
Proof.
  unfold link_ok. by rewrite String.eqb_refl, params_isEqual_refl, orb_true_r.
Qed.

Lemma links_ok_refl l : links_ok l l = true.
Proof.
  induction l as [|d l IH]; [done|]. by rewrite links_ok_cons, link_ok_refl.
Qed.

Lemma links_ok_sealed c d data stack :
  links_ok (c ++ [seal data d]) stack = links_ok (c ++ [d]) stack.
Proof.
  revert stack. induction c as [|x c IH]; intros [|y stack]; try done.
  simpl. by rewrite !links_ok_cons, IH.
Qed.

Lemma accepts_sealed c d data stack :
  accepts stack (c ++ [seal data d])
  = Nat.eqb (length (c ++ [d])) (length stack) && links_ok (c ++ [d]) stack.
Proof.
  unfold accepts. rewrite last_snoc, links_ok_sealed, !length_app. simpl.
  by rewrite andb_true_r.
Qed.

(** What a proxy reads after one expectation was registered on a new
    [MockKnex]: the registered result when the loop body accepts the
    registered operations against the invocation, the empty array
    otherwise. *)
Lemma single_expectation_outcome tableName tableName' ops ops' data cfg :
  let w1 := (expect tableName ops data (World_new cfg)).2 in
  let registered := seed_ops tableName ++ map craft ops in
  let invoked := seed_ops tableName' ++ map craft ops' in
  (bind (MockResolve_calls ops') (λ _, valueOf) (mRFunc tableName' w1, w1)).1
  = Normal (if Nat.eqb (length registered) (length invoked)
               && links_ok registered invoked
               && negb (Nat.eqb (length registered) 0)
            then data else JArr []).
Proof.
  simpl. unfold bind. rewrite MockResolve_calls_exact.
  match goal with
  | |- (valueOf (?this', ?w')).1 = _ =>
      destruct (valueOf_run this' w') as (logs & -> & _)
  end.
  cbn [fst snd currentStack]. rewrite DB_add_logs. f_equal.
  unfold mRFunc. rewrite MockResolve_new_stack.
  destruct (seed_ops tableName ++ map craft ops) as [|x l] eqn:Hl.
  - apply app_eq_nil in Hl as [Hseed Hops].
    apply map_eq_nil in Hops as ->.
    assert (Hf : truthy tableName = false).
    { unfold seed_ops in Hseed. destruct tableName as [name|]; [|done].
      by destruct (truthy (Some name)). }
    rewrite (expect_empty _ _ _ Hf). simpl. rewrite andb_false_r.
    apply outcome_none. repeat constructor. unfold accepts. simpl.
    apply andb_false_r.
  - destruct (snoc_of_cons x l) as (c & d & Hcd). rewrite Hcd in Hl |- *.
    rewrite (expect_run _ _ _ _ c d Hl). simpl.
    assert (Hne : Nat.eqb (length (c ++ [d])) 0 = false).
    { apply Nat.eqb_neq. rewrite length_app. simpl. lia. }
    rewrite Hne, andb_true_r.
    unfold outcome, scan. simpl. rewrite accepts_sealed.
    destruct (_ && _); [|done].
    by rewrite last_snoc.
Qed.

Lemma links_ok_without_arguments ops :
  links_ok (map craft (without_arguments (map fst ops))) (map craft ops) = true.
Proof.
  induction ops as [|[name args] ops IH]; [done|]. simpl.
  rewrite links_ok_cons, IH, andb_true_r. unfold link_ok. simpl.
  by rewrite String.eqb_refl.
Qed.

(** An expectation whose calls all come without arguments is matched by the
    invocation with the same table name and the same method names, whatever
    arguments the code under test passes. *)
Theorem argument_free_expectation_matches_any_arguments
    (tableName : option string) (ops : list Call) (data : JsVal)
    (cfg : option Config) :
  seed_ops tableName ++ map craft ops ≠ [] →
  let w1 :=
    (expect tableName (without_arguments (map fst ops)) data
       (World_new cfg)).2 in
  (bind (MockResolve_calls ops) (λ _, valueOf) (mRFunc tableName w1, w1)).1
  = Normal data.
Proof.
  intros Hne. simpl. rewrite single_expectation_outcome.
  assert (Hlen : length (seed_ops tableName
                           ++ map craft (without_arguments (map fst ops)))
                 = length (seed_ops tableName ++ map craft ops)).
  { unfold without_arguments. by rewrite !length_app, !length_map. }
  rewrite Hlen, Nat.eqb_refl, links_ok_app, links_ok_refl,
    links_ok_without_arguments by done.
  simpl. destruct (seed_ops tableName ++ map craft ops); done.
Qed.

Lemma argument_free_expectation_matches_any_arguments_witness :
  seed_ops (Some "myTable") ++ map craft readme_ops ≠ []
  ∧ (bind (MockResolve_calls readme_ops) (λ _, valueOf)
       (mRFunc (Some "myTable")
          (expect (Some "myTable") (without_arguments (map fst readme_ops))
             readme_result (World_new None)).2,
        (expect (Some "myTable") (without_arguments (map fst readme_ops))
           readme_result (World_new None)).2)).1
    = Normal readme_result.
Proof.
  assert (Hne : seed_ops (Some "myTable") ++ map craft readme_ops ≠ [])
    by discriminate.
  split; [exact Hne|].
  exact (argument_free_expectation_matches_any_arguments (Some "myTable")
           readme_ops readme_result None Hne).
Defined.

(** The wildcard works in one direction only: an expectation that names
    arguments for a call is not matched by the invocation that makes the
    same calls but passes no arguments to that one. *)
Theorem expected_arguments_are_required (tableName : option string)
    (before after : list Call) (name : string) (x : JsVal)
    (args : list JsVal) (data : JsVal) (cfg : option Config) :
  let w1 :=
    (expect tableName (before ++ (name, x :: args) :: after) data
       (World_new cfg)).2 in
  (bind (MockResolve_calls (before ++ (name, []) :: after)) (λ _, valueOf)
     (mRFunc tableName w1, w1)).1
  = Normal (JArr []).
Proof.
  simpl. rewrite single_expectation_outcome.
  rewrite !map_app. simpl.
  rewrite links_ok_app by done.
  rewrite links_ok_app by by rewrite !length_map.
  rewrite links_ok_cons.
  assert (Hl : link_ok (craft (name, x :: args)) (craft (name, [])) = false).
  { unfold link_ok. simpl. apply andb_false_r. }
  rewrite Hl. simpl. by rewrite !andb_false_r.
Qed.

(** Nothing matches in part: an invocation that makes more calls than the
    registered expectation, or stops before its end, resolves to the empty
    array. *)
Theorem longer_or_shorter_invocation_never_matches
    (tableName : option string) (ops extra : list Call) (data : JsVal)
    (cfg : option Config) :
  extra ≠ [] →
  (let w1 := (expect tableName ops data (World_new cfg)).2 in
   (bind (MockResolve_calls (ops ++ extra)) (λ _, valueOf)
      (mRFunc tableName w1, w1)).1 = Normal (JArr []))
  ∧ (let w1 := (expect tableName (ops ++ extra) data (World_new cfg)).2 in
     (bind (MockResolve_calls ops) (λ _, valueOf)
        (mRFunc tableName w1, w1)).1 = Normal (JArr [])).
Proof.
  intros Hne.
  assert (Hlen : length extra ≠ 0) by by destruct extra.
  split; simpl; rewrite single_expectation_outcome.
  - assert (Hn : Nat.eqb (length (seed_ops tableName ++ map craft ops))
                   (length (seed_ops tableName ++ map craft (ops ++ extra)))
                 = false).
    { apply Nat.eqb_neq. rewrite map_app, !length_app, !length_map. lia. }
    by rewrite Hn.
  - assert (Hn : Nat.eqb
                   (length (seed_ops tableName ++ map craft (ops ++ extra)))
                   (length (seed_ops tableName ++ map craft ops))
                 = false).
    { apply Nat.eqb_neq. rewrite map_app, !length_app, !length_map. lia. }
    by rewrite Hn.
Qed.

Lemma longer_or_shorter_invocation_never_matches_witness :
  [(SELECT, [JStr "id"])] ≠ []
  ∧ (bind (MockResolve_calls (readme_ops ++ [(SELECT, [JStr "id"])]))
       (λ _, valueOf) (mRFunc (Some "myTable") readme_world, readme_world)).1
    = Normal (JArr []).
Proof.
  assert (Hne : [(SELECT, [JStr "id"])] ≠ ([] : list Call)) by discriminate.
  split; [exact Hne|].
  exact (proj1 (longer_or_shorter_invocation_never_matches (Some "myTable")
                  readme_ops [(SELECT, [JStr "id"])] readme_result None Hne)).
Defined.

Lemma expect_raw_run text ops data w :
  expect_raw (Normal text) ops data w
  = expect (Some (inputString text)) ops data w.
Proof. done. Qed.

Lemma inputString_eqb r r' :
  String.eqb (inputString r) (inputString r') = String.eqb r r'.
Proof.
  apply Bool.eq_iff_eq_true. rewrite !String.eqb_eq. unfold inputString.
  split; [|by intros ->]. intros H. by simplify_eq/=.
Qed.

Lemma link_ok_table_seeds s s' :
  s ≠ "" →
  link_ok (CraftData TABLE (PStr s) true) (CraftData TABLE (PStr s') true)
  = String.eqb s s'.
Proof. intros Hs. by destruct s. Qed.

(** A raw expectation is matched by the raw invocation followed by the same
    calls exactly when the two raw inputs convert to the same text (for
    string inputs: when they are the same string); otherwise the invocation
    resolves to the empty array. *)
Theorem raw_round_trip (r r' : string) (ops : list Call) (data : JsVal)
    (cfg : option Config) :
  let w1 := (expect_raw (Normal r) ops data (World_new cfg)).2 in
  ∃ proxy,
    mRFunc_raw (Normal r') w1 = Normal proxy
    ∧ (r' = r →
       (bind (MockResolve_calls ops) (λ _, valueOf) (proxy, w1)).1
       = Normal data)
    ∧ (r' ≠ r →
       (bind (MockResolve_calls ops) (λ _, valueOf) (proxy, w1)).1
       = Normal (JArr [])).
Proof.
  cbv zeta. rewrite expect_raw_run. eexists. split; [apply mRFunc_raw_run|].
  rewrite single_expectation_outcome.
  change (seed_ops (Some (inputString r)))
    with [CraftData TABLE (PStr (inputString r)) true].
  change (seed_ops (Some (inputString r')))
    with [CraftData TABLE (PStr (inputString r')) true].
  change ([?x] ++ ?l) with (x :: l).
  rewrite links_ok_cons, links_ok_refl, andb_true_r.
  rewrite link_ok_table_seeds by apply inputString_nonempty.
  rewrite inputString_eqb. cbn [length]. rewrite Nat.eqb_refl. simpl.
  rewrite andb_true_r. split.
  - intros ->. by rewrite String.eqb_refl.
  - intros Hne. apply not_eq_sym, String.eqb_neq in Hne. by rewrite Hne.
Qed.

Lemma raw_round_trip_witness :
  let rows :=
    JObj [("rows", JArr [JObj [("user", JStr "john")];
                         JObj [("user", JStr "jane")]])] in
  let w1 :=
    (expect_raw (Normal "select * from users") [] rows (World_new None)).2 in
  "select * from users" = "select * from users"
  ∧ "select 1" ≠ "select * from users"
  ∧ (∃ proxy,
       mRFunc_raw (Normal "select * from users") w1 = Normal proxy
       ∧ (bind (MockResolve_calls []) (λ _, valueOf) (proxy, w1)).1
         = Normal rows)
  ∧ (∃ proxy,
       mRFunc_raw (Normal "select 1") w1 = Normal proxy
       ∧ (bind (MockResolve_calls []) (λ _, valueOf) (proxy, w1)).1
         = Normal (JArr [])).
Proof.
  simpl.
  assert (H1 : "select * from users" = "select * from users") by reflexivity.
  assert (H2 : "select 1" ≠ "select * from users") by discriminate.
  split; [exact H1|]. split; [exact H2|]. split.
  - destruct (raw_round_trip "select * from users" "select * from users" []
                (JObj [("rows", JArr [JObj [("user", JStr "john")];
                                      JObj [("user", JStr "jane")]])])
                None) as (proxy & Hp & Hsame & _).
    exists proxy. split; [exact Hp|exact (Hsame H1)].
  - destruct (raw_round_trip "select * from users" "select 1" []
                (JObj [("rows", JArr [JObj [("user", JStr "john")];
                                      JObj [("user", JStr "jane")]])])
                None) as (proxy & Hp & _ & Hdiff).
    exists proxy. split; [exact Hp|exact (Hdiff H2)].
Defined.



(** ** The shape of reachable stores *)

Lemma chain_shape_snoc c d : chain_shape c → fluent_op d → chain_shape (c ++ [d]).
Proof.
  destruct c as [|x c]; simpl.
  - intros _ Hd. split; [by right|constructor].
  - intros [Hx Hc] Hd. split; [done|]. apply Forall_app. split; [done|].
    by repeat constructor.
Qed.

Lemma chain_shape_seal c d data :
  chain_shape (c ++ [d]) → chain_shape (c ++ [seal data d]).
Proof.
  destruct c as [|x c]; simpl.
  - intros [Hd _]. split; [done|constructor].
  - intros [Hx Hc]. split; [done|].
    rewrite Forall_app in Hc. destruct Hc as [Hc Hd].
    rewrite Forall_app. split; [done|].
    rewrite Forall_singleton in Hd. rewrite Forall_singleton.
    destruct Hd as [input Hi]. by exists input.
Qed.

Lemma seed_ops_shape tableName :
  chain_shape (seed_ops tableName)
  ∧ Forall result_marks_final (seed_ops tableName).
Proof.
  unfold seed_ops. destruct tableName as [name|]; [|by split].
  destruct (truthy (Some name)) eqn:Ht; [|by split]. split.
  - simpl. split; [|constructor]. left. split; [done|]. exists name.
    split; [done|]. intros ->. by simpl in Ht.
  - repeat constructor; simpl; [done|]. by intros [v Hv].
Qed.

Lemma craft_marks_final name params :
  result_marks_final (CraftData name params true).
Proof. split; [done|]. by intros [v Hv]. Qed.

Lemma seal_marks_final data d : result_marks_final (seal data d).
Proof. split; [by eexists|done]. Qed.

(** In every world a test can reach, each stored chain is an optional seed
    (named ["table"], with a non-empty bare string) followed by operations
    with array parameters; [isMore] is false exactly on the operations that
    carry a result; and the only operations with parameters of length zero,
    the wildcards, are fluent calls without arguments. *)
Theorem reachable_store_shape (w : World) :
  reachable w →
  Forall chain_shape (dataArrayArray (DB w))
  ∧ Forall (Forall result_marks_final) (dataArrayArray (DB w))
  ∧ Forall (Forall (λ d, params_length (parameters d) = 0 →
                         parameters d = PArr []))
      (dataArrayArray (DB w)).
Proof.
  intros Hreach.
  assert (Hinv : Forall chain_shape (dataArrayArray (DB w))
                 ∧ Forall (Forall result_marks_final) (dataArrayArray (DB w))).
  { assert (Hfac : ∀ tn w0,
              Forall chain_shape (dataArrayArray (DB w0))
              ∧ Forall (Forall result_marks_final) (dataArrayArray (DB w0)) →
              Forall chain_shape (dataArrayArray (DB (mQFunc tn w0).2))
              ∧ Forall (Forall result_marks_final)
                  (dataArrayArray (DB (mQFunc tn w0).2))).
    { intros tn w0 [IH1 IH2]. rewrite mQFunc_run.
      destruct (seed_ops_shape tn) as [Hs1 Hs2].
      cbn [snd with_chains DB dataArrayArray].
      split; rewrite Forall_app; (split; [done|]); by apply Forall_singleton. }
    induction Hreach as [cfg|w tn _ IH|w text _ IH|w name input this _ IH
                        |w data this _ IH|w lines _ IH].
    - by split.
    - by apply Hfac.
    - destruct text as [text|e].
      + rewrite mQFunc_raw_run. by apply Hfac.
      + destruct IH as [IH1 IH2]. rewrite mQFunc_raw_throw.
        cbn [snd with_chains DB dataArrayArray].
        split; rewrite Forall_app; (split; [done|]);
          apply Forall_singleton; [done|constructor].
    - destruct IH as [IH1 IH2].
      destruct (dataArrayArray (DB w) !! dataArray this) as [c|] eqn:Hc.
      + rewrite (MockQuery_call_run _ _ _ _ c Hc). simpl.
        assert (Hin : c ∈ dataArrayArray (DB w))
          by by eapply list_elem_of_lookup_2.
        split; (apply Forall_insert; [done|]).
        * apply chain_shape_snoc; [|by eexists].
          by apply (proj1 (Forall_forall _ _) IH1).
        * apply Forall_app. split.
          -- by apply (proj1 (Forall_forall _ _) IH2).
          -- apply Forall_singleton, craft_marks_final.
      + unfold MockQuery_call, dataArray_push. unfold_monad. by rewrite Hc.
    - destruct IH as [IH1 IH2].
      destruct (dataArrayArray (DB w) !! dataArray this) as [c|] eqn:Hc.
      + destruct c as [|d c _] using rev_ind.
        * by rewrite RESOLVE_empty.
        * rewrite (RESOLVE_run _ _ _ c d Hc). simpl.
          assert (Hin : c ++ [d] ∈ dataArrayArray (DB w))
            by by eapply list_elem_of_lookup_2.
          split; (apply Forall_insert; [done|]).
          -- apply chain_shape_seal.
             by apply (proj1 (Forall_forall _ _) IH1).
          -- pose proof (proj1 (Forall_forall _ _) IH2 _ Hin) as Hcd.
             rewrite Forall_app in Hcd. destruct Hcd as [Hc' _].
             rewrite Forall_app. split; [done|].
             apply Forall_singleton, seal_marks_final.
      + unfold RESOLVE. unfold_monad. by rewrite Hc.
    - done. }
  destruct Hinv as [H1 H2]. split_and!; [done..|].
  eapply Forall_impl; [exact H1|]. intros chain Hshape.
  assert (Hop : ∀ d, seed_op d ∨ fluent_op d →
                     params_length (parameters d) = 0 →
                     parameters d = PArr []).
  { intros d [(_ & s & Hs & Hne)|[input Hi]] Hlen.
    - rewrite Hs in Hlen. by apply length_zero_empty in Hlen.
    - rewrite Hi in Hlen |- *. by destruct input. }
  destruct chain as [|d tail]; [constructor|]. destruct Hshape as [Hd Htail].
  constructor; [by apply Hop|].
  eapply Forall_impl; [exact Htail|]. intros x Hx. apply Hop. by right.
Qed.

Lemma reachable_store_shape_witness :
  let w :=
    (RESOLVE (JNum 1) first_builder
       (MockQuery_call SELECT [] first_builder
          (mQFunc (Some "t") (World_new None)).2).2).2 in
  reachable w
  ∧ Forall chain_shape (dataArrayArray (DB w))
  ∧ Forall (Forall result_marks_final) (dataArrayArray (DB w))
  ∧ Forall (Forall (λ d, params_length (parameters d) = 0 →
                         parameters d = PArr []))
      (dataArrayArray (DB w)).
Proof.
  simpl.
  assert (Hreach : reachable
            (RESOLVE (JNum 1) first_builder
               (MockQuery_call SELECT [] first_builder
                  (mQFunc (Some "t") (World_new None)).2).2).2).
  { apply reach_RESOLVE, reach_call, reach_mQFunc, reach_new. }
  split; [exact Hreach|].
  exact (reachable_store_shape _ Hreach).
Defined.

Lemma find_skip {A} (f : A → bool) pre x post :
  f x = false → find f (pre ++ x :: post) = find f (pre ++ post).
Proof.
  intros Hx. induction pre as [|y pre IH]; simpl; [by rewrite Hx|].
  by destruct (f y).
Qed.

(** A chain that is not sealed (empty, never resolved, or extended after
    [RESOLVE]) is inert: with or without it in the store, every invocation
    resolves to the same value.  In particular a factory call that was
    abandoned, or whose [RESOLVE] threw, does not disturb the expectations
    registered before or after it. *)
Theorem unsealed_chain_is_inert (this : MockResolve) (w w' : World)
    (pre post : list (list Data)) (c : list Data) :
  (∀ final, last c = Some final → isMore final = true) →
  dataArrayArray (DB w) = pre ++ c :: post →
  dataArrayArray (DB w') = pre ++ post →
  (findResult (this, w)).1 = (findResult (this, w')).1
  ∧ (valueOf (this, w)).1 = (valueOf (this, w')).1
  ∧ (await (this, w)).1 = (await (this, w')).1.
Proof.
  intros Hopen Hw Hw'.
  assert (Hc : accepts (currentStack this) c = false).
  { destruct c as [|d c _] using rev_ind.
    - unfold accepts. simpl. apply andb_false_r.
    - apply accepts_open_chain, Hopen, last_snoc. }
  destruct (findResult_run this w) as (l1 & -> & _).
  destruct (findResult_run this w') as (l2 & -> & _).
  destruct (valueOf_run this w) as (l3 & -> & _).
  destruct (valueOf_run this w') as (l4 & -> & _).
  destruct (await_run this w) as (l5 & -> & _).
  destruct (await_run this w') as (l6 & -> & _).
  simpl. unfold outcome, scan.
  by rewrite Hw, Hw', (find_skip _ pre c post Hc).
Qed.

Lemma unsealed_chain_is_inert_witness :
  (∀ final, last [CraftData SELECT (PArr [JStr "a"]) true] = Some final →
            isMore final = true)
  ∧ dataArrayArray (DB three_selects)
    = [] ++ [CraftData SELECT (PArr [JStr "a"]) true]
         :: dataArrayArray (DB two_selects)
  ∧ (findResult (select_a_query, three_selects)).1
    = (findResult (select_a_query, two_selects)).1
  ∧ (valueOf (select_a_query, three_selects)).1
    = (valueOf (select_a_query, two_selects)).1
  ∧ (await (select_a_query, three_selects)).1
    = (await (select_a_query, two_selects)).1.
Proof.
  assert (Hopen : ∀ final,
            last [CraftData SELECT (PArr [JStr "a"]) true] = Some final →
            isMore final = true).
  { intros final [= <-]. reflexivity. }
  split; [exact Hopen|]. split; [reflexivity|].
  exact (unsealed_chain_is_inert select_a_query three_selects two_selects
           [] (dataArrayArray (DB two_selects))
           [CraftData SELECT (PArr [JStr "a"]) true]
           Hopen eq_refl eq_refl).
Defined.
